(** * swaybg: the background renderer of sway (swaybg/main.c)

    A shallow embedding of [swaybg/main.c].  The program reads three
    arguments (output index, image path or colour, mode), paints the
    background of the selected output once and then serves the display
    loop.  The embedding keeps:

    - C strings as [string], with [strlen], [strcmp] and indexing;
    - [int] as [Z] with the 32-bit wrap-around written out;
    - [double] as IEEE 754 binary64, through the executable specification
      [spec_float] of the Standard Library (precision 53, emax 1024);
    - the calls into the windowing, registry, cairo and image libraries as
      events appended to a trace, and the answers of those libraries as
      fields of a [world] record;
    - [exit], the out-of-bounds read of the output list and the blocking
      dispatch loop as the possible ends of a run. *)

From Stdlib Require Import ZArith QArith Qabs Lia Lqa List String Ascii Bool.
From Stdlib Require Import Floats.SpecFloat.
Import ListNotations.

Local Open Scope string_scope.
Local Open Scope list_scope.
Local Open Scope Z_scope.

(* ================================================================= *)
(** ** C library: character classes, [atoi], [int] *)

Definition char_code (c : ascii) : Z := Z.of_nat (nat_of_ascii c).

Definition isdigit (c : ascii) : bool :=
  (48 <=? char_code c) && (char_code c <=? 57).

(** [isxdigit] in the C locale: 0-9, A-F, a-f. *)
Definition isxdigit (c : ascii) : bool :=
  isdigit c
  || ((65 <=? char_code c) && (char_code c <=? 70))
  || ((97 <=? char_code c) && (char_code c <=? 102)).

(** [isspace] in the C locale: space, \t, \n, \v, \f, \r. *)
Definition isspace (c : ascii) : bool :=
  (char_code c =? 32) || ((9 <=? char_code c) && (char_code c <=? 13)).

Definition INT_MIN : Z := - 2 ^ 31.
Definition INT_MAX : Z := 2 ^ 31 - 1.
Definition LONG_MIN : Z := - 2 ^ 63.
Definition LONG_MAX : Z := 2 ^ 63 - 1.

(** Conversion to a 32-bit [int] (two's complement truncation). *)
Definition to_int (z : Z) : Z := (z + 2 ^ 31) mod 2 ^ 32 - 2 ^ 31.

Fixpoint skip_space (s : string) : string :=
  match s with
  | String c r => if isspace c then skip_space r else s
  | EmptyString => s
  end.

(** The decimal digits at the head of [s], accumulated onto [acc]. *)
Fixpoint digits_value (acc : Z) (s : string) : Z :=
  match s with
  | String c r =>
      if isdigit c then digits_value (10 * acc + (char_code c - 48)) r else acc
  | EmptyString => acc
  end.

Definition clamp_long (z : Z) : Z := Z.max LONG_MIN (Z.min LONG_MAX z).

(** [strtol(s, NULL, 10)]: leading white space, an optional sign, then
    the longest run of digits; 0 when there is none; saturating. *)
Definition strtol10 (s : string) : Z :=
  match skip_space s with
  | String c r =>
      if Ascii.eqb c "-" then clamp_long (- digits_value 0 r)
      else if Ascii.eqb c "+" then clamp_long (digits_value 0 r)
      else clamp_long (digits_value 0 (String c r))
  | EmptyString => clamp_long 0
  end.

(** [atoi(s)] is [(int) strtol(s, NULL, 10)]. *)
Definition atoi (s : string) : Z := to_int (strtol10 s).

Definition strlen (s : string) : Z := Z.of_nat (String.length s).

(** [s[i]]; the terminating NUL is read at [i = strlen s]. *)
Definition char_at (s : string) (i : nat) : ascii :=
  match String.get i s with
  | Some c => c
  | None => zero
  end.

(** [strcmp(a, b) == 0]. *)
Definition streq (a b : string) : bool := String.eqb a b.

(** The first argument holds no integer: after the white space and an
    optional sign that [atoi] skips, the next character is not a digit. *)
Definition starts_with_digit (s : string) : bool :=
  match s with
  | String c _ => isdigit c
  | EmptyString => false
  end.

Definition no_leading_integer (s : string) : bool :=
  match skip_space s with
  | String c r =>
      if Ascii.eqb c "-" || Ascii.eqb c "+" then negb (starts_with_digit r)
      else negb (isdigit c)
  | EmptyString => true
  end.

(* ================================================================= *)
(** ** [double]: IEEE 754 binary64 *)

Definition double : Type := spec_float.

Definition d_prec : Z := 53.
Definition d_emax : Z := 1024.

(** [(double) z] for an [int] [z]: exact, since |z| < 2^53. *)
Definition d_of_int (z : Z) : double := binary_normalize d_prec d_emax z 0 false.

Definition d_div (x y : double) : double := SFdiv d_prec d_emax x y.
Definition d_sub (x y : double) : double := SFsub d_prec d_emax x y.
Definition d_mul (x y : double) : double := SFmul d_prec d_emax x y.

(** [x > y] on doubles. *)
Definition d_gt (x y : double) : bool := SFltb y x.

Definition d_zero : double := d_of_int 0.
Definition d_one : double := d_of_int 1.
Definition d_two : double := d_of_int 2.

(** The rational number a power of two stands for. *)
Definition Qpow2 (e : Z) : Q :=
  match e with
  | Z0 => 1%Q
  | Zpos p => inject_Z (2 ^ Zpos p)
  | Zneg p => (1 # (2 ^ p))%Q
  end.

(** The rational value of a finite double ([0] for the others, which the
    placement computations never produce from positive sizes). *)
Definition d_val (x : double) : Q :=
  match x with
  | S754_finite s m e =>
      ((if s then inject_Z (Zneg m) else inject_Z (Zpos m)) * Qpow2 e)%Q
  | _ => 0%Q
  end.

(* ================================================================= *)
(** ** The outside world and the trace of a run *)

Inductive log_level := L_ERROR | L_INFO.

(** The calls made on a window's cairo context. *)
Inductive cairo_call :=
| cairo_set_source_u32 (color : Z)
| cairo_scale (sx sy : double)
| cairo_set_source_surface (x y : double)
| cairo_set_source_repeat        (* pattern of the image, CAIRO_EXTEND_REPEAT *)
| cairo_paint.

Inductive event :=
| Log (lvl : log_level) (fmt : string) (strs : list string) (ints : list Z)
| Stderr (msg : string)
| SetBackground (output : Z)
| WindowMakeShell
| DecodeImage (path : string)
| Cairo (c : cairo_call)
| WindowRender
| SurfaceDestroy
| Dispatch
| WindowTeardown
| RegistryTeardown.

(** [struct output_state]: the fields the program reads. *)
Record output_state := { o_width : Z; o_height : Z; o_scale : Z }.

(** [struct window]: the fields the program reads. *)
Record window := { win_width : Z; win_height : Z; win_scale : Z }.

(** What loading the image gives: a surface of some size, or one of the
    three failures the program tests for (no pixbuf, with gdk-pixbuf only;
    no surface; a surface whose status is not CAIRO_STATUS_SUCCESS). *)
Inductive decode_result :=
| Decoded (width height : Z)
| NoPixbuf
| NoSurface
| BadStatus.

(** What the libraries answer during one run. *)
Record world := {
  desktop_shell : bool;                (* registry->desktop_shell != NULL *)
  outputs : list output_state;         (* registry->outputs *)
  window_setup_ok : bool;              (* window_setup returned a window *)
  window_prerender_ok : bool;          (* window_prerender(window) *)
  window_has_cairo : bool;             (* window->cairo != NULL *)
  decode : string -> decode_result;    (* loading the file at a path *)
  parse_color : string -> Z;           (* util.h *)
  dispatch_rounds : option nat         (* dispatches before the display closes *)
}.

(** How a computation ends. *)
Inductive status (A : Type) :=
| Ret (a : A)          (* goes on *)
| Exit (code : Z)      (* exit(code) *)
| Undefined            (* read outside the bounds of a list *)
| Blocked.             (* the display never closes *)
Arguments Ret {A} a.
Arguments Exit {A} code.
Arguments Undefined {A}.
Arguments Blocked {A}.

(** A run: how it ends and the events it produced, in order. *)
Definition run (A : Type) : Type := (status A * list event)%type.

Definition ret {A} (a : A) : run A := (Ret a, []).

Definition bind {A B} (c : run A) (k : A -> run B) : run B :=
  match c with
  | (Ret a, t) => let '(s, t') := k a in (s, t ++ t')
  | (Exit code, t) => (Exit code, t)
  | (Undefined, t) => (Undefined, t)
  | (Blocked, t) => (Blocked, t)
  end.

Notation "x <- c ;; k" := (bind c (fun x => k))
  (at level 61, c at next level, right associativity).
Notation "c ;; k" := (bind c (fun _ => k))
  (at level 61, right associativity).

Definition emit (e : event) : run unit := (Ret tt, [e]).
Definition exit {A} (code : Z) : run A := (Exit code, []).
Definition undefined {A} : run A := (Undefined, []).
Definition blocked {A} : run A := (Blocked, []).

Fixpoint for_each {A} (l : list A) (body : A -> run unit) : run unit :=
  match l with
  | [] => ret tt
  | x :: r => body x ;; for_each r body
  end.

Definition EXIT_FAILURE : Z := 1.

(** [list->items[i]] with an [int] index: no value outside the list. *)
Definition items_at {A} (l : list A) (i : Z) : option A :=
  if i <? 0 then None else nth_error l (Z.to_nat i).

Definition list_length {A} (l : list A) : Z := Z.of_nat (List.length l).

(* ================================================================= *)
(** ** swaybg/main.c *)

Inductive scaling_mode :=
| SCALING_MODE_STRETCH
| SCALING_MODE_FILL
| SCALING_MODE_FIT
| SCALING_MODE_CENTER
| SCALING_MODE_TILE.

(** [sway_terminate]: tear down every surface and the registry, exit. *)
Definition sway_terminate {A} (surfaces : list window) (exit_code : Z) : run A :=
  for_each surfaces (fun _ => emit WindowTeardown) ;;
  emit RegistryTeardown ;;
  exit exit_code.

(** Modelled from the spec: [sway_abort] is declared in log.h and its body
    is not among the sources; the abort routine prints a message to
    standard error and exits non-zero (through [sway_terminate]). *)
Definition sway_abort {A} (surfaces : list window) (msg : string) : run A :=
  emit (Stderr msg) ;;
  sway_terminate surfaces EXIT_FAILURE.

(** The loop [for (i = 1; i < len; ++i) if (!isxdigit(color[i])) return false;]
    with [steps] iterations left. *)
Fixpoint xdigits_from (color : string) (i : nat) (steps : nat) : bool :=
  match steps with
  | O => true
  | S k => if isxdigit (char_at color i) then xdigits_from color (S i) k else false
  end.

Definition is_valid_color (color : string) : run bool :=
  let len := strlen color in
  if negb (len =? 7) || negb (Ascii.eqb (char_at color 0) "#"%char) then
    emit (Log L_ERROR
            "%s is not a valid color for swaybg. Color should be specified as #rrggbb (no alpha)."
            [color] []) ;;
    ret false
  else
    ret (xdigits_from color 1 (Z.to_nat (len - 1))).

(** The chain of [strcmp] on the scaling mode string. *)
Definition parse_scaling_mode (s : string) : option scaling_mode :=
  if streq s "stretch" then Some SCALING_MODE_STRETCH
  else if streq s "fill" then Some SCALING_MODE_FILL
  else if streq s "fit" then Some SCALING_MODE_FIT
  else if streq s "center" then Some SCALING_MODE_CENTER
  else if streq s "tile" then Some SCALING_MODE_TILE
  else None.

(** The body of [switch (scaling_mode)]: the cairo calls that place the
    image, for a target of [wwidth] x [wheight] and an image of
    [width] x [height]. *)
Definition scaling_calls (mode : scaling_mode) (wwidth wheight : Z)
    (width height : double) : list cairo_call :=
  match mode with
  | SCALING_MODE_STRETCH =>
      [ cairo_scale (d_div (d_of_int wwidth) width)
                    (d_div (d_of_int wheight) height);
        cairo_set_source_surface d_zero d_zero ]
  | SCALING_MODE_FILL =>
      let window_ratio := d_div (d_of_int wwidth) (d_of_int wheight) in
      let bg_ratio := d_div width height in
      if d_gt window_ratio bg_ratio then
        let scale := d_div (d_of_int wwidth) width in
        [ cairo_scale scale scale;
          cairo_set_source_surface
            d_zero
            (d_sub (d_div (d_div (d_of_int wheight) d_two) scale)
                   (d_div height d_two)) ]
      else
        let scale := d_div (d_of_int wheight) height in
        [ cairo_scale scale scale;
          cairo_set_source_surface
            (d_sub (d_div (d_div (d_of_int wwidth) d_two) scale)
                   (d_div width d_two))
            d_zero ]
  | SCALING_MODE_FIT =>
      let window_ratio := d_div (d_of_int wwidth) (d_of_int wheight) in
      let bg_ratio := d_div width height in
      if d_gt window_ratio bg_ratio then
        let scale := d_div (d_of_int wheight) height in
        [ cairo_scale scale scale;
          cairo_set_source_surface
            (d_sub (d_div (d_div (d_of_int wwidth) d_two) scale)
                   (d_div width d_two))
            d_zero ]
      else
        let scale := d_div (d_of_int wwidth) width in
        [ cairo_scale scale scale;
          cairo_set_source_surface
            d_zero
            (d_sub (d_div (d_div (d_of_int wheight) d_two) scale)
                   (d_div height d_two)) ]
  | SCALING_MODE_CENTER =>
      [ cairo_set_source_surface
          (d_sub (d_div (d_of_int wwidth) d_two) (d_div width d_two))
          (d_sub (d_div (d_of_int wheight) d_two) (d_div height d_two)) ]
  | SCALING_MODE_TILE =>
      [ cairo_set_source_repeat ]
  end.

(** The same for an image whose size cairo reports as two [int]s. *)
Definition placement (mode : scaling_mode) (target_w target_h image_w image_h : Z)
    : list cairo_call :=
  scaling_calls mode target_w target_h (d_of_int image_w) (d_of_int image_h).

(** The scale in force when the image is painted: the arguments of the
    [cairo_scale] call of the pass; a pass that makes no such call paints
    with the identity scale of the context. *)
Fixpoint scale_factor (calls : list cairo_call) : double * double :=
  match calls with
  | [] => (d_one, d_one)
  | cairo_scale sx sy :: _ => (sx, sy)
  | _ :: r => scale_factor r
  end.

Definition is_scale_call (c : cairo_call) : bool :=
  match c with
  | cairo_scale _ _ => true
  | _ => false
  end.

(** [while (wl_display_dispatch(registry->display) != -1);] *)
Definition dispatch_loop (w : world) : run unit :=
  match dispatch_rounds w with
  | Some n => for_each (repeat tt (S n)) (fun _ => emit Dispatch)
  | None => blocked
  end.

Definition main (w : world) (argv : list string) : run Z :=
  let surfaces : list window := [] in
  match argv with
  | [_; arg1; arg2; arg3] =>
      (if negb (desktop_shell w) then
         sway_abort surfaces
           "swaybg requires the compositor to support the desktop-shell extension."
       else ret tt) ;;
      let desired_output := atoi arg1 in
      emit (Log L_INFO "Using output %d of %d" []
              [desired_output; list_length (outputs w)]) ;;
      output <- match items_at (outputs w) desired_output with
                | Some o => ret o
                | None => undefined
                end ;;
      window <- (if window_setup_ok w then
                   ret {| win_width := o_width output;
                          win_height := o_height output;
                          win_scale := o_scale output |}
                 else sway_abort surfaces "Failed to create surfaces.") ;;
      emit (SetBackground desired_output) ;;
      emit WindowMakeShell ;;
      let surfaces := surfaces ++ [window] in
      solid <- (if streq arg3 "solid_color" then is_valid_color arg2
                else ret false) ;;
      (if solid then
         emit (Cairo (cairo_set_source_u32 (parse_color w arg2))) ;;
         emit (Cairo cairo_paint) ;;
         emit WindowRender
       else
         emit (DecodeImage arg2) ;;
         image <- match decode w arg2 with
                  | Decoded iw ih => ret (iw, ih)
                  | NoPixbuf =>
                      sway_abort surfaces "Failed to load background image."
                  | NoSurface =>
                      sway_abort surfaces "Failed to read background image."
                  | BadStatus =>
                      sway_abort surfaces "Failed to read background image: %s"
                  end ;;
         let width := d_of_int (fst image) in
         let height := d_of_int (snd image) in
         let scaling_mode_str := arg3 in
         scaling_mode <- match parse_scaling_mode scaling_mode_str with
                         | Some m => ret m
                         | None => sway_abort surfaces "Unsupported scaling mode: %s"
                         end ;;
         let wwidth := to_int (win_width window * win_scale window) in
         let wheight := to_int (win_height window * win_scale window) in
         for_each surfaces (fun _ =>
           if window_prerender_ok w && window_has_cairo w then
             for_each (scaling_calls scaling_mode wwidth wheight width height)
                      (fun c => emit (Cairo c)) ;;
             emit (Cairo cairo_paint) ;;
             emit WindowRender
           else ret tt) ;;
         emit SurfaceDestroy) ;;
      dispatch_loop w ;;
      for_each surfaces (fun _ => emit WindowTeardown) ;;
      emit RegistryTeardown ;;
      ret 0
  | _ =>
      sway_abort surfaces
        "Do not run this program manually. See man 5 sway and look for output options."
  end.

(** How a run of [main] ends for the process. *)
Definition exit_status {A} (r : run A) : status A := fst r.
Definition trace {A} (r : run A) : list event := snd r.

Definition is_paint (e : event) : bool :=
  match e with
  | Cairo cairo_paint => true
  | _ => false
  end.

Definition paints (t : list event) : bool := existsb is_paint t.

Definition is_decode (e : event) : bool :=
  match e with
  | DecodeImage _ => true
  | _ => false
  end.

(** The colours the program is meant to take: exactly seven characters,
    [#] and six hexadecimal digits. *)
Definition well_formed_color (s : string) : bool :=
  match s with
  | String c r =>
      Ascii.eqb c "#" && (String.length r =? 6)%nat
      && forallb isxdigit (list_ascii_of_string r)
  | EmptyString => false
  end.

(** The messages a run can abort on once it has gone for the image. *)
Definition image_path_messages : list string :=
  [ "Failed to load background image.";
    "Failed to read background image.";
    "Failed to read background image: %s";
    "Unsupported scaling mode: %s" ].

Definition unknown_mode (mode : string) : Prop :=
  mode <> "solid_color" /\ mode <> "stretch" /\ mode <> "fill" /\
  mode <> "fit" /\ mode <> "center" /\ mode <> "tile".

(** A world with one 1920 x 1080 output, where only "bg.png" decodes. *)
Definition sample_world : world :=
  {| desktop_shell := true;
     outputs := [ {| o_width := 1920; o_height := 1080; o_scale := 1 |} ];
     window_setup_ok := true;
     window_prerender_ok := true;
     window_has_cairo := true;
     decode := fun path => if streq path "bg.png" then Decoded 800 600 else BadStatus;
     parse_color := fun _ => 0;
     dispatch_rounds := Some 0%nat |}.

(* ================================================================= *)
(** ** Reference rounding for the quotient of two [int]s

    Round-to-nearest-even of [N / D] to an integer, and the double it
    gives at a negative exponent.  [fdiv_ref a b] is what
    [(double) a / (double) b] is shown to compute. *)

Definition rne (N D : Z) : Z :=
  let n := N / D in
  let r := N mod D in
  if 2 * r <? D then n
  else if D <? 2 * r then n + 1
  else if Z.even n then n else n + 1.

Definition finish (M e : Z) : double :=
  if M =? 2 ^ 53 then S754_finite false (2 ^ 52)%positive (e + 1)
  else S754_finite false (Z.to_pos M) e.

(** The [k] with [2^52 <= a * 2^k / b < 2^53]. *)
Definition quot_exp (a b : Z) : Z :=
  let k0 := 53 + Z.log2 b - Z.log2 a in
  if a * 2 ^ k0 / b <? 2 ^ 53 then k0 else k0 - 1.

Definition fdiv_ref (a b : Z) : double :=
  let k := quot_exp a b in finish (rne (a * 2 ^ k) b) (- k).

(** Unit roundoff of binary64. *)
Definition u53 : Q := (1 # 2 ^ 53)%Q.

(** A normal positive double with a negative exponent, as the quotients
    of positive [int]s all are. *)
Definition normal_pos (x : double) : Prop :=
  exists m k, x = S754_finite false m (- k) /\ 2 ^ 52 <= Zpos m < 2 ^ 53 /\ 0 < k.

(** A positive [int]. *)
Definition pos_int (z : Z) : Prop := 0 < z < 2 ^ 31.

(* ================================================================= *)
(** ** The properties of a placement *)

Definition fill_scale (tw th iw ih : Z) : double :=
  fst (scale_factor (placement SCALING_MODE_FILL tw th iw ih)).

Definition fit_scale (tw th iw ih : Z) : double :=
  fst (scale_factor (placement SCALING_MODE_FIT tw th iw ih)).

(** The image scaled by [s] covers the target, and meets it on one axis;
    the products are those of the value of the double [s]. *)
Definition covers (s : double) (tw th iw ih : Z) : Prop :=
  (inject_Z tw <= d_val s * inject_Z iw /\
   inject_Z th <= d_val s * inject_Z ih /\
   (d_val s * inject_Z iw == inject_Z tw \/ d_val s * inject_Z ih == inject_Z th))%Q.

(** The image scaled by [s] lies within the target, and meets it on one
    axis. *)
Definition fits_in (s : double) (tw th iw ih : Z) : Prop :=
  (d_val s * inject_Z iw <= inject_Z tw /\
   d_val s * inject_Z ih <= inject_Z th /\
   (d_val s * inject_Z iw == inject_Z tw \/ d_val s * inject_Z ih == inject_Z th))%Q.

(** [x] is [y] up to the relative error [eps]. *)
Definition close_to (eps x y : Q) : Prop := (Qabs (x - y) <= y * eps)%Q.

(** The same two properties up to rounding: relative slack [eps] on the
    inequalities, and one rounding of the quotient where they meet. *)
Definition covers_within (eps : Q) (s : double) (tw th iw ih : Z) : Prop :=
  (inject_Z tw * (1 - eps) <= d_val s * inject_Z iw /\
   inject_Z th * (1 - eps) <= d_val s * inject_Z ih)%Q /\
  (close_to u53 (d_val s * inject_Z iw) (inject_Z tw) \/
   close_to u53 (d_val s * inject_Z ih) (inject_Z th)).

Definition fits_within (eps : Q) (s : double) (tw th iw ih : Z) : Prop :=
  (d_val s * inject_Z iw <= inject_Z tw * (1 + eps) /\
   d_val s * inject_Z ih <= inject_Z th * (1 + eps))%Q /\
  (close_to u53 (d_val s * inject_Z iw) (inject_Z tw) \/
   close_to u53 (d_val s * inject_Z ih) (inject_Z th)).

(* ================================================================= *)
(** * Binary64 division of two [int]s *)

(** ** Number of digits of a mantissa *)

Lemma digits2_pos_size p : digits2_pos p = Pos.size p.
Proof. induction p; simpl; congruence. Qed.

Lemma digits_bounds p :
  2 ^ (Zpos (digits2_pos p) - 1) <= Zpos p < 2 ^ Zpos (digits2_pos p).
Proof.
  rewrite digits2_pos_size.
  pose proof (Pos.size_gt p) as Hgt.
  pose proof (Pos.size_le p) as Hle.
  assert (Hgt' : Zpos p < 2 ^ Zpos (Pos.size p)).
  { change 2 with (Zpos 2). rewrite <- Pos2Z.inj_pow. lia. }
  assert (Hle' : 2 ^ Zpos (Pos.size p) <= 2 * Zpos p).
  { change 2 with (Zpos 2) at 1. rewrite <- Pos2Z.inj_pow. lia. }
  split; [| exact Hgt'].
  replace (Zpos (Pos.size p)) with (Zpos (Pos.size p) - 1 + 1) in Hle' by lia.
  rewrite Z.pow_add_r in Hle' by lia. lia.
Qed.

Lemma digits_unique p d :
  2 ^ (d - 1) <= Zpos p < 2 ^ d -> Zpos (digits2_pos p) = d.
Proof.
  intros [Hlo Hhi]. pose proof (digits_bounds p) as [Hlo' Hhi'].
  assert (0 < d).
  { destruct (Z_lt_le_dec 0 d); auto.
    assert (2 ^ d <= 2 ^ 0) by (apply Z.pow_le_mono_r; lia). simpl in *. lia. }
  set (d' := Zpos (digits2_pos p)) in *.
  destruct (Z.lt_trichotomy d' d) as [Hlt | [Heq | Hgt]]; auto; exfalso.
  - assert (2 ^ d' <= 2 ^ (d - 1)) by (apply Z.pow_le_mono_r; lia). lia.
  - assert (2 ^ d <= 2 ^ (d' - 1)) by (apply Z.pow_le_mono_r; lia). lia.
Qed.

Lemma digits_log2 p : Zpos (digits2_pos p) = Z.log2 (Zpos p) + 1.
Proof.
  apply digits_unique.
  pose proof (Z.log2_spec (Zpos p) ltac:(lia)) as H.
  replace (Z.log2 (Zpos p) + 1 - 1) with (Z.log2 (Zpos p)) by lia.
  replace (Z.log2 (Zpos p) + 1) with (Z.succ (Z.log2 (Zpos p))) by lia.
  exact H.
Qed.

Lemma iter_xO_pow p d : Zpos (Pos.iter xO p d) = Zpos p * 2 ^ Zpos d.
Proof.
  induction d using Pos.peano_ind.
  - simpl. lia.
  - rewrite Pos.iter_succ. rewrite Pos2Z.inj_xO, IHd.
    rewrite Pos2Z.inj_succ, Z.pow_succ_r by lia. lia.
Qed.

(** ** The steps of [binary_round_aux] on 53 and 54 digits *)

Lemma fexp_normal e : -1021 <= e -> fexp 53 1024 e = e - 53.
Proof. intros H. unfold fexp, emin. lia. Qed.

Lemma Zdigits2_pos p : Zdigits2 (Zpos p) = Zpos (digits2_pos p).
Proof. reflexivity. Qed.

Lemma shr_fexp_53 p e l :
  Zpos (digits2_pos p) = 53 -> -1074 <= e ->
  shr_fexp 53 1024 (Zpos p) e l = (shr_record_of_loc (Zpos p) l, e).
Proof.
  intros Hd He. unfold shr_fexp. rewrite Zdigits2_pos, Hd.
  rewrite fexp_normal by lia.
  replace (53 + e - 53 - e) with 0 by lia. reflexivity.
Qed.

Lemma shr_fexp_54 p e l :
  Zpos (digits2_pos p) = 54 -> -1075 <= e ->
  shr_fexp 53 1024 (Zpos p) e l = (shr_1 (shr_record_of_loc (Zpos p) l), e + 1).
Proof.
  intros Hd He. unfold shr_fexp. rewrite Zdigits2_pos, Hd.
  rewrite fexp_normal by lia.
  replace (54 + e - 53 - e) with 1 by lia. reflexivity.
Qed.

(** The second half of [binary_round_aux]: renormalise after rounding. *)
Lemma round_finish M e :
  2 ^ 52 <= M <= 2 ^ 53 -> -1074 <= e <= 970 ->
  (let '(mrs, e') := shr_fexp 53 1024 M e loc_Exact in
   match shr_m mrs with
   | Z0 => S754_zero false
   | Zpos m => if e' <=? 1024 - 53 then S754_finite false m e' else S754_infinity false
   | Zneg _ => S754_nan
   end) = finish M e.
Proof.
  intros HM He. unfold finish.
  destruct (Z.eqb_spec M (2 ^ 53)) as [-> | Hne].
  - rewrite (shr_fexp_54 (2 ^ 53)%positive) by (try reflexivity; lia).
    cbn [shr_record_of_loc shr_1 shr_m].
    destruct (Z.leb_spec (e + 1) (1024 - 53)); [reflexivity | lia].
  - destruct M as [| p | p]; try (exfalso; lia).
    rewrite shr_fexp_53; [| apply digits_unique; lia | lia].
    cbn [shr_record_of_loc shr_m].
    destruct (Z.leb_spec e (1024 - 53)); [| lia].
    rewrite Pos2Z.id. reflexivity.
Qed.

Lemma loc_of_shr_of_loc m l : loc_of_shr_record (shr_record_of_loc m l) = l.
Proof. destruct l as [| []]; reflexivity. Qed.

Lemma shr_m_of_loc m l : shr_m (shr_record_of_loc m l) = m.
Proof. destruct l as [| []]; reflexivity. Qed.

Lemma round_nearest_even_range m l :
  m <= round_nearest_even m l <= m + 1.
Proof. destruct l as [| []]; simpl; try lia. destruct (Z.even m); lia. Qed.

Lemma binary_round_aux_53 p e l :
  Zpos (digits2_pos p) = 53 -> -1074 <= e <= 970 ->
  binary_round_aux 53 1024 false (Zpos p) e l
  = finish (round_nearest_even (Zpos p) l) e.
Proof.
  intros Hd He. unfold binary_round_aux.
  rewrite shr_fexp_53 by (auto; lia).
  rewrite shr_m_of_loc, loc_of_shr_of_loc.
  apply round_finish; [| lia].
  pose proof (round_nearest_even_range (Zpos p) l).
  pose proof (digits_bounds p) as Hb. rewrite Hd in Hb.
  change (2 ^ (53 - 1)) with (2 ^ 52) in Hb. lia.
Qed.

Lemma shr_1_m m r s : 0 <= m -> shr_m (shr_1 (Build_shr_record m r s)) = m / 2.
Proof.
  intros Hm. destruct m as [| [p | p |] |]; try lia; cbn [shr_1 shr_m].
  - reflexivity.
  - rewrite Pos2Z.inj_xI. apply Z.div_unique with 1; lia.
  - rewrite Pos2Z.inj_xO. apply Z.div_unique with 0; lia.
  - reflexivity.
Qed.

Lemma shr_1_loc m l :
  0 <= m ->
  loc_of_shr_record (shr_1 (shr_record_of_loc m l))
  = match Z.odd m, l with
    | false, loc_Exact => loc_Exact
    | false, _ => loc_Inexact Lt
    | true, loc_Exact => loc_Inexact Eq
    | true, _ => loc_Inexact Gt
    end.
Proof.
  intros Hm. destruct m as [| [p | p |] |]; try lia; destruct l as [| []]; reflexivity.
Qed.

Lemma binary_round_aux_54 p e l :
  Zpos (digits2_pos p) = 54 -> -1075 <= e <= 969 ->
  binary_round_aux 53 1024 false (Zpos p) e l
  = finish (round_nearest_even (Zpos p / 2)
              (match Z.odd (Zpos p), l with
               | false, loc_Exact => loc_Exact
               | false, _ => loc_Inexact Lt
               | true, loc_Exact => loc_Inexact Eq
               | true, _ => loc_Inexact Gt
               end)) (e + 1).
Proof.
  intros Hd He. unfold binary_round_aux.
  rewrite shr_fexp_54 by (auto; lia).
  rewrite shr_1_loc by lia.
  destruct l as [| c]; cbn [shr_record_of_loc]; try destruct c; rewrite shr_1_m by lia;
  (apply round_finish; [| lia]);
  pose proof (digits_bounds p) as Hb; rewrite Hd in Hb;
  change (2 ^ (54 - 1)) with (2 ^ 53) in Hb;
  match goal with |- context [round_nearest_even ?m ?l] =>
    pose proof (round_nearest_even_range m l) end;
  assert (2 ^ 52 <= Zpos p / 2) by (apply Z.div_le_lower_bound; lia);
  assert (Zpos p / 2 < 2 ^ 53) by (apply Z.div_lt_upper_bound; [lia|]; change (2 ^ 54) with (2 * 2 ^ 53) in Hb; lia);
  lia.
Qed.

(** ** Conversion of an [int]; the rounding decision *)

Lemma log2_range a : 0 < a < 2 ^ 53 -> 0 <= Z.log2 a <= 52.
Proof.
  intros Ha. split; [apply Z.log2_nonneg |].
  assert (Z.log2 a < 53) by (apply Z.log2_lt_pow2; lia). lia.
Qed.

Lemma norm_mant_bounds a :
  0 < a < 2 ^ 53 ->
  2 ^ 52 <= a * 2 ^ (52 - Z.log2 a) < 2 ^ 53.
Proof.
  intros Ha. pose proof (log2_range a Ha) as Hl.
  pose proof (Z.log2_spec a ltac:(lia)) as [Hlo Hhi].
  set (l := Z.log2 a) in *.
  assert (Hp : 0 < 2 ^ (52 - l)) by (apply Z.pow_pos_nonneg; lia).
  assert (E52 : 2 ^ 52 = 2 ^ l * 2 ^ (52 - l)).
  { rewrite <- Z.pow_add_r by lia. f_equal. lia. }
  assert (E53 : 2 ^ 53 = 2 * 2 ^ 52) by reflexivity.
  rewrite Z.pow_succ_r in Hhi by lia.
  rewrite E53, E52. clear E52 E53. nia.
Qed.

Lemma d_of_int_pos a :
  0 < a < 2 ^ 53 ->
  d_of_int a = S754_finite false (Z.to_pos (a * 2 ^ (52 - Z.log2 a))) (Z.log2 a - 52).
Proof.
  intros Ha. pose proof (log2_range a Ha) as Hl.
  pose proof (norm_mant_bounds a Ha) as Hm.
  destruct a as [| p |]; try lia.
  unfold d_of_int, binary_normalize, binary_round, d_prec, d_emax.
  rewrite Z.add_0_r, fexp_normal by lia.
  rewrite digits_log2.
  set (l := Z.log2 (Zpos p)) in *.
  assert (Hsh : shl_align p 0 (l + 1 - 53)
                = (Z.to_pos (Zpos p * 2 ^ (52 - l)), l - 52)).
  { unfold shl_align. rewrite Z.sub_0_r.
    destruct (l + 1 - 53) as [| q | q] eqn:E; try lia.
    - replace (52 - l) with 0 by lia. rewrite Z.mul_1_r. simpl. f_equal. lia.
    - f_equal; [| lia].
      apply Pos2Z.inj. rewrite iter_xO_pow, Z2Pos.id by lia.
      f_equal. f_equal. lia. }
  rewrite Hsh.
  remember (Z.to_pos (Zpos p * 2 ^ (52 - l))) as m eqn:Em.
  assert (Hmz : Zpos m = Zpos p * 2 ^ (52 - l)) by (subst m; rewrite Z2Pos.id; lia).
  rewrite binary_round_aux_53.
  - cbn [round_nearest_even]. unfold finish.
    destruct (Z.eqb_spec (Zpos m) (2 ^ 53)); [lia |].
    reflexivity.
  - apply digits_unique. change (53 - 1) with 52. lia.
  - lia.
Qed.

Lemma new_location_spec D r :
  0 <= r < D ->
  new_location D r = if r =? 0 then loc_Exact else loc_Inexact (2 * r ?= D).
Proof.
  intros Hr. unfold new_location.
  destruct (Z.even D) eqn:Ev; unfold new_location_even, new_location_odd;
    destruct (Z.eqb_spec r 0) as [E0 | Hne]; try reflexivity.
  f_equal.
  assert (Hodd : Z.odd D = true) by (rewrite <- Z.negb_even, Ev; reflexivity).
  apply Z.odd_spec in Hodd. destruct Hodd as [h Hh].
  destruct (Z.compare_spec (2 * r + 1) D), (Z.compare_spec (2 * r) D); try reflexivity; lia.
Qed.

Lemma round_rne N D :
  0 < D -> 0 <= N ->
  round_nearest_even (N / D) (new_location D (N mod D)) = rne N D.
Proof.
  intros HD HN. pose proof (Z.mod_pos_bound N D HD) as Hr.
  rewrite new_location_spec by lia. unfold rne.
  destruct (Z.eqb_spec (N mod D) 0) as [E0 | Hne].
  - rewrite E0. cbn [round_nearest_even].
    destruct (Z.ltb_spec (2 * 0) D); [reflexivity | lia].
  - destruct (Z.compare_spec (2 * (N mod D)) D) as [Heq | Hlt | Hgt]; cbn [round_nearest_even].
    + destruct (Z.ltb_spec (2 * (N mod D)) D); [lia |].
      destruct (Z.ltb_spec D (2 * (N mod D))); [lia |]. reflexivity.
    + destruct (Z.ltb_spec (2 * (N mod D)) D); [reflexivity | lia].
    + destruct (Z.ltb_spec (2 * (N mod D)) D); [lia |].
      destruct (Z.ltb_spec D (2 * (N mod D))); [reflexivity | lia].
Qed.

Lemma round_rne_half N D :
  0 < D -> 0 <= N ->
  round_nearest_even (N / D / 2)
    (match Z.odd (N / D), new_location D (N mod D) with
     | false, loc_Exact => loc_Exact
     | false, _ => loc_Inexact Lt
     | true, loc_Exact => loc_Inexact Eq
     | true, _ => loc_Inexact Gt
     end) = rne N (D * 2).
Proof.
  intros HD HN. pose proof (Z.mod_pos_bound N D HD) as Hr.
  rewrite new_location_spec by lia. unfold rne.
  rewrite Z.rem_mul_r by lia. rewrite <- Z.div_div by lia.
  rewrite <- Z.bit0_mod, Z.bit0_odd.
  destruct (Z.odd (N / D)); cbn [Z.b2z];
  destruct (Z.eqb_spec (N mod D) 0) as [E0 | Hne]; cbn [round_nearest_even].
  - rewrite E0.
    destruct (Z.ltb_spec (2 * (0 + D * 1)) (D * 2)); [lia |].
    destruct (Z.ltb_spec (D * 2) (2 * (0 + D * 1))); [lia |]. reflexivity.
  - destruct (Z.ltb_spec (2 * (N mod D + D * 1)) (D * 2)); [lia |].
    destruct (Z.ltb_spec (D * 2) (2 * (N mod D + D * 1))); [reflexivity | lia].
  - destruct (Z.ltb_spec (2 * (N mod D + D * 0)) (D * 2)); [reflexivity | lia].
  - destruct (Z.ltb_spec (2 * (N mod D + D * 0)) (D * 2)); [reflexivity | lia].
Qed.

Lemma rne_scale N D c : 0 < D -> 0 < c -> rne (N * c) (D * c) = rne N D.
Proof.
  intros HD Hc. unfold rne.
  rewrite Z.div_mul_cancel_r by lia.
  rewrite Z.mul_mod_distr_r by lia.
  assert (H1 : (2 * (N mod D * c) <? D * c) = (2 * (N mod D) <? D)).
  { destruct (Z.ltb_spec (2 * (N mod D * c)) (D * c)), (Z.ltb_spec (2 * (N mod D)) D);
      try reflexivity; nia. }
  assert (H2 : (D * c <? 2 * (N mod D * c)) = (D <? 2 * (N mod D))).
  { destruct (Z.ltb_spec (D * c) (2 * (N mod D * c))), (Z.ltb_spec D (2 * (N mod D)));
      try reflexivity; nia. }
  rewrite H1, H2. reflexivity.
Qed.

(** ** The quotient of two normal numbers *)

Lemma quotient_range m1 m2 :
  2 ^ 52 <= m1 < 2 ^ 53 -> 2 ^ 52 <= m2 < 2 ^ 53 ->
  2 ^ 52 <= m1 * 2 ^ 53 / m2 < 2 ^ 54.
Proof.
  intros H1 H2. split.
  - apply Z.div_le_lower_bound; [lia |].
    change (2 ^ 53) with (2 * 2 ^ 52) in *. nia.
  - apply Z.div_lt_upper_bound; [lia |].
    change (2 ^ 54) with (2 ^ 53 * 2). change (2 ^ 53) with (2 * 2 ^ 52) in *. nia.
Qed.

Lemma d_div_normal m1 e1 m2 e2 :
  Zpos (digits2_pos m1) = 53 -> Zpos (digits2_pos m2) = 53 ->
  -52 <= e1 <= 0 -> -52 <= e2 <= 0 ->
  d_div (S754_finite false m1 e1) (S754_finite false m2 e2)
  = if Zpos m1 * 2 ^ 53 / Zpos m2 <? 2 ^ 53
    then finish (rne (Zpos m1 * 2 ^ 53) (Zpos m2)) (e1 - e2 - 53)
    else finish (rne (Zpos m1 * 2 ^ 53) (Zpos m2 * 2)) (e1 - e2 - 53 + 1).
Proof.
  intros Hd1 Hd2 He1 He2.
  pose proof (digits_bounds m1) as Hb1. rewrite Hd1 in Hb1.
  pose proof (digits_bounds m2) as Hb2. rewrite Hd2 in Hb2.
  change (53 - 1) with 52 in *.
  pose proof (quotient_range _ _ Hb1 Hb2) as Hq.
  unfold d_div, SFdiv, SFdiv_core_binary, d_prec, d_emax.
  rewrite !Zdigits2_pos, Hd1, Hd2.
  rewrite fexp_normal by lia.
  replace (Z.min (53 + e1 - (53 + e2) - 53) (e1 - e2)) with (e1 - e2 - 53) by lia.
  replace (e1 - e2 - (e1 - e2 - 53)) with 53 by lia.
  rewrite Z.shiftl_mul_pow2 by lia.
  set (N := Zpos m1 * 2 ^ 53) in *.
  set (D := Zpos m2) in *.
  assert (Hdm : Z.div_eucl N D = (N / D, N mod D)).
  { unfold Z.div, Z.modulo. destruct (Z.div_eucl N D). reflexivity. }
  rewrite Hdm. cbn [xorb].
  destruct (N / D) as [| q |] eqn:Eq; try lia.
  destruct (Z.ltb_spec (Zpos q) (2 ^ 53)) as [Hlt | Hge].
  - rewrite binary_round_aux_53; [| apply digits_unique; change (53 - 1) with 52; lia | lia].
    rewrite <- Eq. rewrite round_rne by lia. reflexivity.
  - rewrite binary_round_aux_54; [| apply digits_unique; change (54 - 1) with 53; lia | lia].
    rewrite <- Eq. rewrite round_rne_half by lia. reflexivity.
Qed.

Lemma quot_exp_range a b :
  0 < a < 2 ^ 31 -> 0 < b < 2 ^ 31 -> 22 <= quot_exp a b <= 83.
Proof.
  intros Ha Hb. unfold quot_exp.
  assert (0 <= Z.log2 a <= 30).
  { split; [apply Z.log2_nonneg |]. assert (Z.log2 a < 31) by (apply Z.log2_lt_pow2; lia). lia. }
  assert (0 <= Z.log2 b <= 30).
  { split; [apply Z.log2_nonneg |]. assert (Z.log2 b < 31) by (apply Z.log2_lt_pow2; lia). lia. }
  destruct (_ <? _); lia.
Qed.

Theorem d_div_int a b :
  0 < a < 2 ^ 31 -> 0 < b < 2 ^ 31 ->
  d_div (d_of_int a) (d_of_int b) = fdiv_ref a b.
Proof.
  intros Ha Hb.
  assert (Ha' : 0 < a < 2 ^ 53) by (change (2 ^ 53) with (2 ^ 31 * 2 ^ 22); lia).
  assert (Hb' : 0 < b < 2 ^ 53) by (change (2 ^ 53) with (2 ^ 31 * 2 ^ 22); lia).
  pose proof (log2_range a Ha') as Hla. pose proof (log2_range b Hb') as Hlb.
  pose proof (norm_mant_bounds a Ha') as Hma. pose proof (norm_mant_bounds b Hb') as Hmb.
  rewrite (d_of_int_pos a), (d_of_int_pos b) by assumption.
  set (la := Z.log2 a) in *. set (lb := Z.log2 b) in *.
  rewrite d_div_normal;
    [| apply digits_unique; rewrite Z2Pos.id by lia; change (53 - 1) with 52; lia
     | apply digits_unique; rewrite Z2Pos.id by lia; change (53 - 1) with 52; lia
     | lia | lia].
  rewrite !Z2Pos.id by lia.
  unfold fdiv_ref, quot_exp. fold la. fold lb.
  set (c := 2 ^ (52 - lb)) in *.
  assert (Hc : 0 < c) by (apply Z.pow_pos_nonneg; lia).
  assert (EN : a * 2 ^ (52 - la) * 2 ^ 53 = a * 2 ^ (53 + lb - la) * c).
  { unfold c. rewrite <- !Z.mul_assoc, <- !Z.pow_add_r by lia. do 2 f_equal. lia. }
  rewrite EN.
  rewrite Z.div_mul_cancel_r by lia.
  destruct (Z.ltb_spec (a * 2 ^ (53 + lb - la) / b) (2 ^ 53)) as [Hlt | Hge].
  - rewrite rne_scale by lia. f_equal. lia.
  - assert (E2 : a * 2 ^ (53 + lb - la) * c = a * 2 ^ (53 + lb - la - 1) * (c * 2)).
    { replace (53 + lb - la) with (53 + lb - la - 1 + 1) at 1 by lia.
      rewrite Z.pow_add_r by lia. change (2 ^ 1) with 2. lia. }
    rewrite E2. rewrite <- (Z.mul_assoc b c 2).
    rewrite rne_scale by lia. f_equal. lia.
Qed.

(** ** Properties of the rounded quotient *)

(** The exponent chosen by [quot_exp] brackets the quotient in one binade. *)
Lemma quot_exp_bracket a b :
  0 < a -> 0 < b -> Z.log2 a <= 52 -> 
  let k := quot_exp a b in
  2 ^ 52 * b <= a * 2 ^ k < 2 ^ 53 * b.
Proof.
  intros Ha Hb Hla. cbv zeta. unfold quot_exp.
  pose proof (Z.log2_spec a Ha) as [Hla1 Hla2].
  pose proof (Z.log2_spec b Hb) as [Hlb1 Hlb2].
  pose proof (Z.log2_nonneg a) as Hn1. pose proof (Z.log2_nonneg b) as Hn2.
  set (la := Z.log2 a) in *. set (lb := Z.log2 b) in *.
  rewrite Z.pow_succ_r in Hla2, Hlb2 by lia.
  assert (E1 : 2 ^ la * 2 ^ (53 + lb - la - 1) = 2 ^ 52 * 2 ^ lb).
  { rewrite <- !Z.pow_add_r by lia. f_equal. lia. }
  assert (E2 : 2 ^ (53 + lb - la) = 2 * 2 ^ (53 + lb - la - 1)).
  { rewrite <- Z.pow_succ_r by lia. f_equal. lia. }
  set (P := 2 ^ (53 + lb - la - 1)) in *.
  assert (HP : 0 < P) by (apply Z.pow_pos_nonneg; lia).
  assert (HA : 0 < 2 ^ la) by (apply Z.pow_pos_nonneg; lia).
  assert (HB : 0 < 2 ^ lb) by (apply Z.pow_pos_nonneg; lia).
  assert (Hlow : 2 ^ 52 * b < a * (2 * P)) by nia.
  assert (Hhigh : a * P < 2 ^ 53 * b).
  { change (2 ^ 53) with (2 * 2 ^ 52). nia. }
  rewrite E2.
  destruct (Z.ltb_spec (a * (2 * P) / b) (2 ^ 53)) as [Hlt | Hge].
  - rewrite E2. split; [lia |].
    destruct (Z_lt_le_dec (a * (2 * P)) (2 ^ 53 * b)) as [|Hc]; [assumption |].
    exfalso. rewrite (Z.mul_comm (2 ^ 53)) in Hc.
    apply (Z.div_le_lower_bound _ _ _ Hb) in Hc. lia.
  - fold P. split; [| assumption].
    assert (Hc : b * 2 ^ 53 <= a * (2 * P)).
    { rewrite (Z.mul_comm b). etransitivity; [apply Z.mul_le_mono_nonneg_r; [lia | exact Hge] |].
      rewrite Z.mul_comm. apply Z.mul_div_le. lia. }
    change (2 ^ 53) with (2 * 2 ^ 52) in Hc. lia.
Qed.

Lemma bracket_unique a b k k' :
  0 < a -> 0 < b -> 0 <= k -> 0 <= k' ->
  2 ^ 52 * b <= a * 2 ^ k < 2 ^ 53 * b ->
  2 ^ 52 * b <= a * 2 ^ k' < 2 ^ 53 * b ->
  k = k'.
Proof.
  assert (Haux : forall a b k k', 0 < a -> 0 < b -> 0 <= k -> k < k' ->
            2 ^ 52 * b <= a * 2 ^ k ->  a * 2 ^ k' < 2 ^ 53 * b -> False).
  { intros a0 b0 k0 k0' Ha Hb Hk Hlt H1 H2.
    assert (E : 2 ^ k0' = 2 ^ k0 * 2 ^ (k0' - k0)).
    { rewrite <- Z.pow_add_r by lia. f_equal. lia. }
    assert (2 ^ 1 <= 2 ^ (k0' - k0)) by (apply Z.pow_le_mono_r; lia).
    change (2 ^ 1) with 2 in *. change (2 ^ 53) with (2 * 2 ^ 52) in *.
    assert (0 < 2 ^ k0) by (apply Z.pow_pos_nonneg; lia).
    rewrite E in H2. nia. }
  intros Ha Hb Hk Hk' [H1 H2] [H1' H2'].
  destruct (Z.lt_trichotomy k k') as [Hlt | [Heq | Hgt]]; auto; exfalso.
  - eapply (Haux a b k k'); eauto.
  - eapply (Haux a b k' k); eauto.
Qed.

Lemma quot_exp_nonneg a b :
  0 < a < 2 ^ 31 -> 0 < b < 2 ^ 31 -> 0 <= quot_exp a b.
Proof. intros Ha Hb. pose proof (quot_exp_range a b Ha Hb). lia. Qed.

Lemma log2_int a : 0 < a < 2 ^ 31 -> Z.log2 a <= 52.
Proof. intros Ha. assert (Z.log2 a < 31) by (apply Z.log2_lt_pow2; lia). lia. Qed.

(** Correct rounding: the double quotient of two [int]s depends only on
    their exact ratio. *)
Theorem fdiv_ref_ratio a b c d :
  0 < a < 2 ^ 31 -> 0 < b < 2 ^ 31 -> 0 < c < 2 ^ 31 -> 0 < d < 2 ^ 31 ->
  a * d = c * b ->
  fdiv_ref a b = fdiv_ref c d.
Proof.
  intros Ha Hb Hc Hd Heq.
  pose proof (quot_exp_bracket a b ltac:(lia) ltac:(lia) (log2_int a Ha)) as Hk1.
  pose proof (quot_exp_bracket c d ltac:(lia) ltac:(lia) (log2_int c Hc)) as Hk2.
  pose proof (quot_exp_nonneg a b Ha Hb) as Hn1.
  pose proof (quot_exp_nonneg c d Hc Hd) as Hn2.
  cbv zeta in Hk1, Hk2.
  assert (Ek : quot_exp a b = quot_exp c d).
  { apply (bracket_unique a b); try lia.
    set (k' := quot_exp c d) in *.
    assert (0 < 2 ^ k') by (apply Z.pow_pos_nonneg; lia).
    split.
    - apply Z.mul_le_mono_pos_r with d; [lia |]. nia.
    - apply Z.mul_lt_mono_pos_r with d; [lia |]. nia. }
  unfold fdiv_ref. rewrite <- Ek. f_equal.
  set (k := quot_exp a b) in *.
  rewrite <- (rne_scale (a * 2 ^ k) b d) by lia.
  rewrite <- (rne_scale (c * 2 ^ k) d b) by lia.
  f_equal; [nia | lia].
Qed.

Lemma rne_error N D :
  0 < D -> 0 <= N ->
  N / D <= rne N D <= N / D + 1 /\ 2 * Z.abs (rne N D * D - N) <= D.
Proof.
  intros HD HN. pose proof (Z.mod_pos_bound N D HD) as Hr.
  pose proof (Z.div_mod N D ltac:(lia)) as Hdm.
  unfold rne.
  destruct (Z.ltb_spec (2 * (N mod D)) D).
  - split; [lia | nia].
  - destruct (Z.ltb_spec D (2 * (N mod D))).
    + split; [lia | nia].
    + destruct (Z.even (N / D)); (split; [lia | nia]).
Qed.

(** The double quotient of two positive [int]s is a normal number within
    half a unit in the last place of the exact quotient. *)
Theorem fdiv_ref_spec a b :
  0 < a < 2 ^ 31 -> 0 < b < 2 ^ 31 ->
  exists m k,
    fdiv_ref a b = S754_finite false m (- k) /\
    2 ^ 52 <= Zpos m < 2 ^ 53 /\ 21 <= k <= 83 /\
    Z.abs (Zpos m * b - a * 2 ^ k) * 2 ^ 53 <= a * 2 ^ k.
Proof.
  intros Ha Hb.
  pose proof (quot_exp_bracket a b ltac:(lia) ltac:(lia) (log2_int a Ha)) as Hk.
  pose proof (quot_exp_range a b Ha Hb) as Hr.
  cbv zeta in Hk. unfold fdiv_ref.
  set (k := quot_exp a b) in *.
  assert (Hpk : 0 < 2 ^ k) by (apply Z.pow_pos_nonneg; lia).
  pose proof (rne_error (a * 2 ^ k) b ltac:(lia) ltac:(nia)) as [Hn Herr].
  assert (Hq : 2 ^ 52 <= a * 2 ^ k / b < 2 ^ 53).
  { split; [apply Z.div_le_lower_bound; lia | apply Z.div_lt_upper_bound; lia]. }
  set (M := rne (a * 2 ^ k) b) in *.
  unfold finish. destruct (Z.eqb_spec M (2 ^ 53)) as [EM | HM].
  - exists (2 ^ 52)%positive, (k - 1). split; [f_equal; lia |].
    split; [split; reflexivity || lia |]. split; [lia |].
    assert (E : 2 ^ k = 2 * 2 ^ (k - 1)).
    { rewrite <- Z.pow_succ_r by lia. f_equal. lia. }
    rewrite EM in Herr. rewrite E in *.
    change (Zpos (2 ^ 52)) with (2 ^ 52).
    change (2 ^ 53) with (2 * 2 ^ 52) in *. lia.
  - exists (Z.to_pos M), k. rewrite Z2Pos.id by lia.
    split; [reflexivity |]. split; [lia |]. split; [lia |].
    change (2 ^ 53) with (2 * 2 ^ 52) in *. lia.
Qed.

(** ** Values as rationals *)

Lemma d_val_neg m k :
  0 < k -> d_val (S754_finite false m (- k)) = (Zpos m # Z.to_pos (2 ^ k))%Q.
Proof.
  intros Hk. destruct k as [| p |]; try lia.
  cbn [Z.opp d_val Qpow2]. unfold Qmult, inject_Z. cbn [Qnum Qden].
  rewrite Z.mul_1_r, Pos.mul_1_l. f_equal.
  apply Pos2Z.inj. rewrite Pos2Z.inj_pow, Z2Pos.id; [reflexivity |].
  apply Z.pow_pos_nonneg; lia.
Qed.

Lemma fdiv_ref_normal a b :
  0 < a < 2 ^ 31 -> 0 < b < 2 ^ 31 -> normal_pos (fdiv_ref a b).
Proof.
  intros Ha Hb. destruct (fdiv_ref_spec a b Ha Hb) as (m & k & E & Hm & Hk & _).
  exists m, k. repeat split; try assumption; lia.
Qed.

Lemma normal_pos_val x : normal_pos x -> (0 < d_val x)%Q.
Proof.
  intros (m & k & -> & Hm & Hk). rewrite d_val_neg by lia.
  unfold Qlt. cbn [Qnum Qden]. lia.
Qed.

(** Relative error of the double quotient: at most one unit roundoff. *)
Theorem fdiv_ref_error a b :
  0 < a < 2 ^ 31 -> 0 < b < 2 ^ 31 ->
  (Qabs (d_val (fdiv_ref a b) * inject_Z b - inject_Z a) <= inject_Z a * u53)%Q.
Proof.
  intros Ha Hb. destruct (fdiv_ref_spec a b Ha Hb) as (m & k & E & Hm & Hk & Herr).
  rewrite E, d_val_neg by lia.
  assert (Hp : 0 < 2 ^ k) by (apply Z.pow_pos_nonneg; lia).
  set (P := Z.to_pos (2 ^ k)).
  assert (HP : Zpos P = 2 ^ k) by (unfold P; rewrite Z2Pos.id; lia).
  apply Qabs_Qle_condition.
  unfold u53, Qle, Qminus, Qplus, Qmult, Qopp, inject_Z. cbn [Qnum Qden].
  rewrite !Pos2Z.inj_mul, HP.
  change (Zpos (2 ^ 53)) with (2 ^ 53). change (Zpos 1) with 1.
  set (T := 2 ^ k) in *. set (U := 2 ^ 53) in *.
  assert (0 < U) by (unfold U; lia).
  split; nia.
Qed.

(** Comparison of normal doubles is comparison of their values. *)
Lemma d_gt_val x y :
  normal_pos x -> normal_pos y ->
  if d_gt x y then (d_val y < d_val x)%Q else (d_val x <= d_val y)%Q.
Proof.
  intros (m1 & k1 & -> & Hm1 & Hk1) (m2 & k2 & -> & Hm2 & Hk2).
  rewrite !d_val_neg by lia.
  assert (Hp1 : 0 < 2 ^ k1) by (apply Z.pow_pos_nonneg; lia).
  assert (Hp2 : 0 < 2 ^ k2) by (apply Z.pow_pos_nonneg; lia).
  unfold d_gt, SFltb, SFcompare, Qlt, Qle. cbn [Qnum Qden].
  rewrite !Z2Pos.id by lia.
  assert (Hshift : forall m m' k k', 2 ^ 52 <= m < 2 ^ 53 -> 2 ^ 52 <= m' < 2 ^ 53 ->
            0 < k -> k < k' -> m' * 2 ^ k < m * 2 ^ k').
  { intros m m' k k' Hm Hm' Hk Hlt.
    assert (E : 2 ^ k' = 2 ^ k * 2 ^ (k' - k)).
    { rewrite <- Z.pow_add_r by lia. f_equal. lia. }
    assert (2 ^ 1 <= 2 ^ (k' - k)) by (apply Z.pow_le_mono_r; lia).
    assert (0 < 2 ^ k) by (apply Z.pow_pos_nonneg; lia).
    change (2 ^ 1) with 2 in *. change (2 ^ 53) with (2 * 2 ^ 52) in *.
    rewrite E. nia. }
  destruct (Z.compare_spec (- k2) (- k1)) as [Ek | Hlt | Hgt].
  - assert (k1 = k2) by lia. subst k2.
    rewrite Pos.compare_cont_spec.
    destruct (Pos.compare_spec m2 m1); cbn [Pos.switch_Eq]; nia.
  - (* exponent of y smaller: y < x *)
    pose proof (Hshift (Zpos m1) (Zpos m2) k1 k2 Hm1 Hm2 Hk1 ltac:(lia)). lia.
  - pose proof (Hshift (Zpos m2) (Zpos m1) k2 k1 Hm2 Hm1 Hk2 ltac:(lia)). lia.
Qed.

(* ================================================================= *)
(** * Slack of a scale chosen by comparing two rounded ratios *)

Lemma Qmult_pos_cancel (r x : Q) : (0 < r -> 0 <= r * x -> 0 <= x)%Q.
Proof. intros Hr H. nra. Qed.

Lemma Qmul_le (c a b : Q) : (0 <= c -> a <= b -> a * c <= b * c)%Q.
Proof. intros. apply Qmult_le_compat_r; assumption. Qed.

Section Cross.
Local Open Scope Q_scope.
Variables s r1 r2 A B X Y u : Q.
Hypothesis Hs : 0 < s.
Hypothesis Hr1 : 0 < r1.
Hypothesis Hr2 : 0 < r2.
Hypothesis HA : 0 < A.
Hypothesis HB : 0 < B.
Hypothesis HX : 0 < X.
Hypothesis HY : 0 < Y.
Hypothesis Hu : 0 <= u.
Hypothesis Hu8 : u <= 1 # 8.

(** [s ~ A/X], [r1 ~ A/B], [r2 ~ X/Y] and [r2 <= r1]: [s * Y] is hardly
    below [B]. *)
Lemma cross_lower :
  A * (1 - u) <= s * X -> r1 * B <= A * (1 + u) -> X * (1 - u) <= r2 * Y ->
  r2 <= r1 ->
  B * (1 - 4 * u) <= s * Y.
Proof.
  intros h1 h2 h3 h4.
  assert (HsY : 0 <= s * Y) by nra.
  pose proof (Qmul_le s _ _ ltac:(lra) h3) as i1a.
  pose proof (Qmul_le (s * Y) _ _ HsY h4) as i1b.
  pose proof (Qmul_le (1 - u) _ _ ltac:(lra) h1) as i2a.
  assert (i2 : A * (1 - u) * (1 - u) <= s * Y * r1) by lra.
  pose proof (Qmul_le ((1 - u) * (1 - u)) _ _ ltac:(nra) h2) as i3a.
  pose proof (Qmul_le (1 + u) _ _ ltac:(lra) i2) as i3b.
  assert (i4 : 0 <= r1 * (s * Y * (1 + u) - B * (1 - u) * (1 - u))) by lra.
  apply Qmult_pos_cancel in i4; [| assumption].
  assert (i5 : 0 <= (1 + u) * (s * Y - B * (1 - 4 * u))) by nra.
  apply Qmult_pos_cancel in i5; lra.
Qed.

(** [s ~ A/X], [r1 ~ B/A], [r2 ~ Y/X] and [r1 <= r2]. *)
Lemma cross_lower_inv :
  A * (1 - u) <= s * X -> B * (1 - u) <= r1 * A -> r2 * X <= Y * (1 + u) ->
  r1 <= r2 ->
  B * (1 - 4 * u) <= s * Y.
Proof.
  intros h1 h2 h3 h4.
  pose proof (Qmul_le s _ _ ltac:(lra) h3) as i1.
  pose proof (Qmul_le r2 _ _ ltac:(lra) h1) as i2.
  pose proof (Qmul_le (A * (1 - u)) _ _ ltac:(nra) h4) as i3.
  pose proof (Qmul_le (1 - u) _ _ ltac:(lra) h2) as i4.
  assert (i5 : 0 <= (1 + u) * (s * Y - B * (1 - 4 * u))) by nra.
  apply Qmult_pos_cancel in i5; lra.
Qed.

(** [s ~ A/X], [r1 ~ B/A], [r2 ~ Y/X] and [r2 <= r1]: [s * Y] is hardly
    above [B]. *)
Lemma cross_upper_inv :
  s * X <= A * (1 + u) -> r1 * A <= B * (1 + u) -> Y * (1 - u) <= r2 * X ->
  r2 <= r1 ->
  s * Y <= B * (1 + 4 * u).
Proof.
  intros h1 h2 h3 h4.
  pose proof (Qmul_le s _ _ ltac:(lra) h3) as i1.
  pose proof (Qmul_le r2 _ _ ltac:(lra) h1) as i2.
  pose proof (Qmul_le (A * (1 + u)) _ _ ltac:(nra) h4) as i3.
  pose proof (Qmul_le (1 + u) _ _ ltac:(lra) h2) as i4.
  assert (hB : 0 <= B * u * (1 - 5 * u)).
  { apply Qmult_le_0_compat; [apply Qmult_le_0_compat |]; lra. }
  assert (i5 : 0 <= (1 - u) * (B * (1 + 4 * u) - s * Y)) by lra.
  apply Qmult_pos_cancel in i5; lra.
Qed.

(** [s ~ A/X], [r1 ~ A/B], [r2 ~ X/Y] and [r1 <= r2]. *)
Lemma cross_upper :
  s * X <= A * (1 + u) -> A * (1 - u) <= r1 * B -> r2 * Y <= X * (1 + u) ->
  r1 <= r2 ->
  s * Y <= B * (1 + 4 * u).
Proof.
  intros h1 h2 h3 h4.
  assert (HsY : 0 <= s * Y) by nra.
  pose proof (Qmul_le (s * Y) _ _ HsY h4) as i1.
  pose proof (Qmul_le s _ _ ltac:(lra) h3) as i2.
  pose proof (Qmul_le (1 + u) _ _ ltac:(lra) h1) as i3.
  assert (i4 : s * Y * r1 <= A * (1 + u) * (1 + u)) by lra.
  pose proof (Qmul_le ((1 + u) * (1 + u)) _ _ ltac:(nra) h2) as i5.
  pose proof (Qmul_le (1 - u) _ _ ltac:(lra) i4) as i6.
  assert (i7 : 0 <= r1 * (B * (1 + u) * (1 + u) - s * Y * (1 - u))) by lra.
  apply Qmult_pos_cancel in i7; [| assumption].
  assert (hB : 0 <= B * u * (1 - 5 * u)).
  { apply Qmult_le_0_compat; [apply Qmult_le_0_compat |]; lra. }
  assert (i8 : 0 <= (1 - u) * (B * (1 + 4 * u) - s * Y)) by lra.
  apply Qmult_pos_cancel in i8; lra.
Qed.
End Cross.

(* ================================================================= *)
(** * The placement of each scaling mode *)

Lemma quot_bounds a b :
  pos_int a -> pos_int b ->
  (inject_Z a * (1 - u53) <= d_val (fdiv_ref a b) * inject_Z b
   /\ d_val (fdiv_ref a b) * inject_Z b <= inject_Z a * (1 + u53))%Q.
Proof.
  intros Ha Hb. pose proof (fdiv_ref_error a b Ha Hb) as H.
  apply Qabs_Qle_condition in H. destruct H as [H1 H2]. split; lra.
Qed.

Lemma quot_close a b :
  pos_int a -> pos_int b ->
  close_to u53 (d_val (fdiv_ref a b) * inject_Z b) (inject_Z a).
Proof. intros Ha Hb. exact (fdiv_ref_error a b Ha Hb). Qed.

Lemma inject_pos a : pos_int a -> (0 < inject_Z a)%Q.
Proof. intros [H _]. change 0%Q with (inject_Z 0). rewrite <- Zlt_Qlt. exact H. Qed.

Lemma u53_range : (0 <= u53 /\ u53 <= 1 # 8)%Q.
Proof. split; unfold u53, Qle; cbn [Qnum Qden]; lia. Qed.

Lemma slack_51 : (4 * u53 == 1 # 2 ^ 51)%Q.
Proof. reflexivity. Qed.

Lemma fill_calls tw th iw ih :
  pos_int tw -> pos_int th -> pos_int iw -> pos_int ih ->
  placement SCALING_MODE_FILL tw th iw ih
  = if d_gt (fdiv_ref tw th) (fdiv_ref iw ih) then
      [ cairo_scale (fdiv_ref tw iw) (fdiv_ref tw iw);
        cairo_set_source_surface d_zero
          (d_sub (d_div (d_div (d_of_int th) d_two) (fdiv_ref tw iw))
                 (d_div (d_of_int ih) d_two)) ]
    else
      [ cairo_scale (fdiv_ref th ih) (fdiv_ref th ih);
        cairo_set_source_surface
          (d_sub (d_div (d_div (d_of_int tw) d_two) (fdiv_ref th ih))
                 (d_div (d_of_int iw) d_two))
          d_zero ].
Proof.
  intros Htw Hth Hiw Hih. unfold placement, scaling_calls.
  rewrite !d_div_int by assumption. reflexivity.
Qed.

Lemma fit_calls tw th iw ih :
  pos_int tw -> pos_int th -> pos_int iw -> pos_int ih ->
  placement SCALING_MODE_FIT tw th iw ih
  = if d_gt (fdiv_ref tw th) (fdiv_ref iw ih) then
      [ cairo_scale (fdiv_ref th ih) (fdiv_ref th ih);
        cairo_set_source_surface
          (d_sub (d_div (d_div (d_of_int tw) d_two) (fdiv_ref th ih))
                 (d_div (d_of_int iw) d_two))
          d_zero ]
    else
      [ cairo_scale (fdiv_ref tw iw) (fdiv_ref tw iw);
        cairo_set_source_surface d_zero
          (d_sub (d_div (d_div (d_of_int th) d_two) (fdiv_ref tw iw))
                 (d_div (d_of_int ih) d_two)) ].
Proof.
  intros Htw Hth Hiw Hih. unfold placement, scaling_calls.
  rewrite !d_div_int by assumption. reflexivity.
Qed.

Lemma d_gt_irrefl x : d_gt x x = false.
Proof.
  unfold d_gt, SFltb, SFcompare.
  destruct x as [[] | [] | | [] m e]; try reflexivity;
    rewrite Z.compare_refl, Pos.compare_cont_refl; reflexivity.
Qed.


(** ** fill *)

(** C1, as stated, fails: the claim reads [covers (fill_scale tw th iw ih)
    tw th iw ih] for all positive sizes.  For a 1366 x 768 target and a
    5184 x 3456 image the scale is the double nearest to 1366/5184, which
    is below the exact quotient, so the scaled width falls short of 1366. *)
Lemma fill_exact_cover_fails :
  ~ covers (fill_scale 1366 768 5184 3456) 1366 768 5184 3456.
Proof.
  intros [H _]. vm_compute in H. apply H. reflexivity.
Qed.

(** The same shortfall shows when the product is taken in doubles. *)
Example fill_short_in_double_product :
  d_gt (d_of_int 1366) (d_mul (fill_scale 1366 768 5184 3456) (d_of_int 5184)) = true.
Proof. vm_compute. reflexivity. Qed.

(** C1 (amended): for all positive [int] sizes the fill mode passes one
    scale to both axes; the scaled image covers the target up to a
    relative slack of 2^-51 on each axis, and on the axis the scale was
    computed from, scale * image is the target within one rounding of the
    quotient (relative error 2^-53). *)
Theorem fill_covers_up_to_rounding tw th iw ih :
  pos_int tw -> pos_int th -> pos_int iw -> pos_int ih ->
  scale_factor (placement SCALING_MODE_FILL tw th iw ih)
    = (fill_scale tw th iw ih, fill_scale tw th iw ih) /\
  covers_within (1 # 2 ^ 51) (fill_scale tw th iw ih) tw th iw ih.
Proof.
  intros Htw Hth Hiw Hih. unfold fill_scale.
  rewrite fill_calls by assumption.
  pose proof (d_gt_val (fdiv_ref tw th) (fdiv_ref iw ih)
                (fdiv_ref_normal _ _ Htw Hth) (fdiv_ref_normal _ _ Hiw Hih)) as Hcmp.
  pose proof (quot_bounds tw th Htw Hth) as [R1lo R1hi].
  pose proof (quot_bounds iw ih Hiw Hih) as [R2lo R2hi].
  pose proof (quot_bounds tw iw Htw Hiw) as [Swlo Swhi].
  pose proof (quot_bounds th ih Hth Hih) as [Shlo Shhi].
  pose proof (normal_pos_val _ (fdiv_ref_normal _ _ Htw Hth)) as P1.
  pose proof (normal_pos_val _ (fdiv_ref_normal _ _ Hiw Hih)) as P2.
  pose proof (normal_pos_val _ (fdiv_ref_normal _ _ Htw Hiw)) as Pw.
  pose proof (normal_pos_val _ (fdiv_ref_normal _ _ Hth Hih)) as Ph.
  pose proof (inject_pos _ Htw) as Qtw. pose proof (inject_pos _ Hth) as Qth.
  pose proof (inject_pos _ Hiw) as Qiw. pose proof (inject_pos _ Hih) as Qih.
  destruct u53_range as [U0 U8].
  destruct (d_gt (fdiv_ref tw th) (fdiv_ref iw ih)); cbn [scale_factor fst];
    (split; [reflexivity |]); unfold covers_within; rewrite <- slack_51.
  - split; [split |].
    + lra.
    + apply (cross_lower _ (d_val (fdiv_ref tw th)) (d_val (fdiv_ref iw ih))
               (inject_Z tw) _ (inject_Z iw)); try assumption; lra.
    + left. apply quot_close; assumption.
  - split; [split |].
    + apply (cross_lower_inv _ (d_val (fdiv_ref tw th)) (d_val (fdiv_ref iw ih))
               (inject_Z th) _ (inject_Z ih)); try assumption; lra.
    + lra.
    + right. apply quot_close; assumption.
Qed.

Lemma fill_covers_up_to_rounding_witness :
  scale_factor (placement SCALING_MODE_FILL 1366 768 5184 3456)
    = (fill_scale 1366 768 5184 3456, fill_scale 1366 768 5184 3456) /\
  covers_within (1 # 2 ^ 51) (fill_scale 1366 768 5184 3456) 1366 768 5184 3456.
Proof.
  apply (fill_covers_up_to_rounding 1366 768 5184 3456); unfold pos_int; lia.
Defined.

(** ** fit *)

(** C2, as stated, fails: the claim reads [fits_in (fit_scale tw th iw ih)
    tw th iw ih] for all positive sizes.  For a 1600 x 900 target and a
    3264 x 2448 image the scale is the double nearest to 900/2448, which
    is above the exact quotient, so the scaled height exceeds 900. *)
Lemma fit_exact_bound_fails :
  ~ fits_in (fit_scale 1600 900 3264 2448) 1600 900 3264 2448.
Proof.
  intros (_ & H & _). vm_compute in H. apply H. reflexivity.
Qed.

(** The same excess shows when the product is taken in doubles. *)
Example fit_long_in_double_product :
  d_gt (d_mul (fit_scale 1600 900 3264 2448) (d_of_int 2448)) (d_of_int 900) = true.
Proof. vm_compute. reflexivity. Qed.

(** C2 (amended): for all positive [int] sizes the fit mode passes one
    scale to both axes; the scaled image stays within the target up to a
    relative slack of 2^-51 on each axis, and on the axis the scale was
    computed from, scale * image is the target within one rounding of the
    quotient (relative error 2^-53). *)
Theorem fit_within_up_to_rounding tw th iw ih :
  pos_int tw -> pos_int th -> pos_int iw -> pos_int ih ->
  scale_factor (placement SCALING_MODE_FIT tw th iw ih)
    = (fit_scale tw th iw ih, fit_scale tw th iw ih) /\
  fits_within (1 # 2 ^ 51) (fit_scale tw th iw ih) tw th iw ih.
Proof.
  intros Htw Hth Hiw Hih. unfold fit_scale.
  rewrite fit_calls by assumption.
  pose proof (d_gt_val (fdiv_ref tw th) (fdiv_ref iw ih)
                (fdiv_ref_normal _ _ Htw Hth) (fdiv_ref_normal _ _ Hiw Hih)) as Hcmp.
  pose proof (quot_bounds tw th Htw Hth) as [R1lo R1hi].
  pose proof (quot_bounds iw ih Hiw Hih) as [R2lo R2hi].
  pose proof (quot_bounds tw iw Htw Hiw) as [Swlo Swhi].
  pose proof (quot_bounds th ih Hth Hih) as [Shlo Shhi].
  pose proof (normal_pos_val _ (fdiv_ref_normal _ _ Htw Hth)) as P1.
  pose proof (normal_pos_val _ (fdiv_ref_normal _ _ Hiw Hih)) as P2.
  pose proof (normal_pos_val _ (fdiv_ref_normal _ _ Htw Hiw)) as Pw.
  pose proof (normal_pos_val _ (fdiv_ref_normal _ _ Hth Hih)) as Ph.
  pose proof (inject_pos _ Htw) as Qtw. pose proof (inject_pos _ Hth) as Qth.
  pose proof (inject_pos _ Hiw) as Qiw. pose proof (inject_pos _ Hih) as Qih.
  destruct u53_range as [U0 U8].
  destruct (d_gt (fdiv_ref tw th) (fdiv_ref iw ih)); cbn [scale_factor fst];
    (split; [reflexivity |]); unfold fits_within; rewrite <- slack_51.
  - split; [split |].
    + apply (cross_upper_inv _ (d_val (fdiv_ref tw th)) (d_val (fdiv_ref iw ih))
               (inject_Z th) _ (inject_Z ih)); try assumption; lra.
    + lra.
    + right. apply quot_close; assumption.
  - split; [split |].
    + lra.
    + apply (cross_upper _ (d_val (fdiv_ref tw th)) (d_val (fdiv_ref iw ih))
               (inject_Z tw) _ (inject_Z iw)); try assumption; lra.
    + left. apply quot_close; assumption.
Qed.

Lemma fit_within_up_to_rounding_witness :
  scale_factor (placement SCALING_MODE_FIT 1600 900 3264 2448)
    = (fit_scale 1600 900 3264 2448, fit_scale 1600 900 3264 2448) /\
  fits_within (1 # 2 ^ 51) (fit_scale 1600 900 3264 2448) 1600 900 3264 2448.
Proof.
  apply (fit_within_up_to_rounding 1600 900 3264 2448); unfold pos_int; lia.
Defined.

(** ** Equal ratios *)

(** C4: for all positive [int] sizes with equal ratios
    (target_w * image_h = image_w * target_h), the comparison
    [window_ratio > bg_ratio] is false, so fill and fit both run their else
    branch, and in both modes the scale passed to [cairo_scale] is the
    double [target_h / image_h] (in fit it is computed as
    [target_w / image_w], which is the same double). *)
Theorem equal_ratios_take_else_branch tw th iw ih :
  pos_int tw -> pos_int th -> pos_int iw -> pos_int ih ->
  tw * ih = iw * th ->
  let window_ratio := d_div (d_of_int tw) (d_of_int th) in
  let bg_ratio := d_div (d_of_int iw) (d_of_int ih) in
  let scale := d_div (d_of_int th) (d_of_int ih) in
  d_gt window_ratio bg_ratio = false /\
  placement SCALING_MODE_FILL tw th iw ih
    = [ cairo_scale scale scale;
        cairo_set_source_surface
          (d_sub (d_div (d_div (d_of_int tw) d_two) scale) (d_div (d_of_int iw) d_two))
          d_zero ] /\
  placement SCALING_MODE_FIT tw th iw ih
    = [ cairo_scale scale scale;
        cairo_set_source_surface
          d_zero
          (d_sub (d_div (d_div (d_of_int th) d_two) scale) (d_div (d_of_int ih) d_two)) ] /\
  fill_scale tw th iw ih = scale /\ fit_scale tw th iw ih = scale.
Proof.
  intros Htw Hth Hiw Hih Heq. cbv zeta.
  assert (Hr : fdiv_ref tw th = fdiv_ref iw ih)
    by (apply fdiv_ref_ratio; assumption).
  assert (Hs : fdiv_ref tw iw = fdiv_ref th ih)
    by (apply fdiv_ref_ratio; try assumption; lia).
  unfold fill_scale, fit_scale.
  rewrite fill_calls, fit_calls by assumption.
  rewrite !d_div_int by assumption.
  rewrite Hr, Hs, d_gt_irrefl. cbn [scale_factor fst].
  repeat split; reflexivity.
Qed.

Lemma equal_ratios_take_else_branch_witness :
  let window_ratio := d_div (d_of_int 1920) (d_of_int 1080) in
  let bg_ratio := d_div (d_of_int 1280) (d_of_int 720) in
  let scale := d_div (d_of_int 1080) (d_of_int 720) in
  d_gt window_ratio bg_ratio = false /\
  placement SCALING_MODE_FILL 1920 1080 1280 720
    = [ cairo_scale scale scale;
        cairo_set_source_surface
          (d_sub (d_div (d_div (d_of_int 1920) d_two) scale) (d_div (d_of_int 1280) d_two))
          d_zero ] /\
  placement SCALING_MODE_FIT 1920 1080 1280 720
    = [ cairo_scale scale scale;
        cairo_set_source_surface
          d_zero
          (d_sub (d_div (d_div (d_of_int 1080) d_two) scale) (d_div (d_of_int 720) d_two)) ] /\
  fill_scale 1920 1080 1280 720 = scale /\ fit_scale 1920 1080 1280 720 = scale.
Proof.
  apply (equal_ratios_take_else_branch 1920 1080 1280 720);
    unfold pos_int; lia.
Defined.

(** The hypothesis is on the sizes, not on the rounded ratios: two ratios
    that differ as fractions can round to the same double, and then fit's
    else branch, which divides the widths, need not give the double
    [target_h / image_h]. *)
Example ratios_equal_only_as_doubles :
  let tw := 829318103 in let th := 382537684 in
  let iw := 30004585 in let ih := 13840147 in
  tw * ih <> iw * th /\
  d_div (d_of_int tw) (d_of_int th) = d_div (d_of_int iw) (d_of_int ih) /\
  fit_scale tw th iw ih <> d_div (d_of_int th) (d_of_int ih).
Proof.
  cbv zeta. split; [lia |]. split; [vm_compute; reflexivity |].
  vm_compute. discriminate.
Qed.

(** The scenario of the description: 1920 x 1080 over 1280 x 720 in fill
    mode gives scale 1.5 and both offsets 0. *)
Example fill_same_ratio_scenario :
  placement SCALING_MODE_FILL 1920 1080 1280 720
  = [ cairo_scale (S754_finite false 6755399441055744 (-52))
                  (S754_finite false 6755399441055744 (-52));
      cairo_set_source_surface (S754_zero false) (S754_zero false) ]
  /\ (d_val (S754_finite false 6755399441055744 (-52)) == 3 # 2)%Q.
Proof. split; vm_compute; reflexivity. Qed.

(** The other scenario of the description: 1920 x 1080 over 800 x 600 in
    fit mode gives scale 1.8 (as a double), horizontal offset
    133.33333333333337 and vertical offset 0. *)
Example fit_letterbox_scenario :
  placement SCALING_MODE_FIT 1920 1080 800 600
  = [ cairo_scale (S754_finite false 8106479329266893 (-52))
                  (S754_finite false 8106479329266893 (-52));
      cairo_set_source_surface (S754_finite false 4691249611844268 (-45))
                               (S754_zero false) ].
Proof. vm_compute. reflexivity. Qed.

(** ** stretch *)

(** C5: for all positive [int] sizes the stretch mode passes
    scale_x = target_w / image_w and scale_y = target_h / image_h to
    [cairo_scale] and places the image at (0, 0); scale_x * image_w is
    target_w and scale_y * image_h is target_h within the rounding of one
    double division (relative error at most 2^-53). *)
Theorem stretch_scales_each_axis tw th iw ih :
  pos_int tw -> pos_int th -> pos_int iw -> pos_int ih ->
  let scale_x := d_div (d_of_int tw) (d_of_int iw) in
  let scale_y := d_div (d_of_int th) (d_of_int ih) in
  placement SCALING_MODE_STRETCH tw th iw ih
    = [ cairo_scale scale_x scale_y; cairo_set_source_surface d_zero d_zero ] /\
  (d_val d_zero == 0)%Q /\
  close_to u53 (d_val scale_x * inject_Z iw) (inject_Z tw) /\
  close_to u53 (d_val scale_y * inject_Z ih) (inject_Z th).
Proof.
  intros Htw Hth Hiw Hih. cbv zeta.
  split; [reflexivity |]. split; [reflexivity |].
  rewrite !d_div_int by assumption.
  split; apply quot_close; assumption.
Qed.

Lemma stretch_scales_each_axis_witness :
  let scale_x := d_div (d_of_int 1920) (d_of_int 800) in
  let scale_y := d_div (d_of_int 1080) (d_of_int 600) in
  placement SCALING_MODE_STRETCH 1920 1080 800 600
    = [ cairo_scale scale_x scale_y; cairo_set_source_surface d_zero d_zero ] /\
  (d_val d_zero == 0)%Q /\
  close_to u53 (d_val scale_x * inject_Z 800) (inject_Z 1920) /\
  close_to u53 (d_val scale_y * inject_Z 600) (inject_Z 1080).
Proof.
  apply (stretch_scales_each_axis 1920 1080 800 600); unfold pos_int; lia.
Defined.

(** ** center and tile *)

(** C8: for all sizes the center and the tile mode make no [cairo_scale]
    call, so the image is painted with the identity scale: the scale
    factor is 1 on both axes. *)
Theorem center_and_tile_do_not_scale tw th iw ih :
  scale_factor (placement SCALING_MODE_CENTER tw th iw ih) = (d_one, d_one) /\
  scale_factor (placement SCALING_MODE_TILE tw th iw ih) = (d_one, d_one) /\
  filter is_scale_call (placement SCALING_MODE_CENTER tw th iw ih) = [] /\
  filter is_scale_call (placement SCALING_MODE_TILE tw th iw ih) = [] /\
  (d_val d_one == 1)%Q.
Proof. repeat split. Qed.

(* ================================================================= *)
(** * The run of [main] *)

Lemma for_each_emit {A} (l : list A) (f : A -> event) :
  for_each l (fun x => emit (f x)) = (Ret tt, map f l).
Proof.
  induction l as [| x r IH]; [reflexivity |].
  cbn [for_each map]. rewrite IH. reflexivity.
Qed.

Lemma streq_neq a b : a <> b -> streq a b = false.
Proof. intros H. unfold streq. apply String.eqb_neq. exact H. Qed.

Lemma items_at_none {A} (l : list A) i :
  items_at l i = None <-> ~ (0 <= i < list_length l).
Proof.
  unfold items_at, list_length.
  destruct (Z.ltb_spec i 0) as [Hneg | Hpos].
  - split; [lia | reflexivity].
  - rewrite nth_error_None. lia.
Qed.

Lemma items_at_some {A} (l : list A) i :
  0 <= i < list_length l -> exists x, items_at l i = Some x.
Proof.
  intros H. destruct (items_at l i) eqn:E; [eauto |].
  apply items_at_none in E. contradiction.
Qed.

Lemma parse_scaling_mode_unknown mode :
  mode <> "stretch" -> mode <> "fill" -> mode <> "fit" ->
  mode <> "center" -> mode <> "tile" ->
  parse_scaling_mode mode = None.
Proof.
  intros. unfold parse_scaling_mode. rewrite !streq_neq by assumption. reflexivity.
Qed.

(** ** The colour validator against its description *)

Lemma xdigits_from_shift c s i n :
  xdigits_from (String c s) (S i) n = xdigits_from s i n.
Proof.
  revert i. induction n as [| n IH]; intros i; [reflexivity |].
  cbn [xdigits_from]. change (char_at (String c s) (S i)) with (char_at s i).
  rewrite IH. reflexivity.
Qed.

Lemma xdigits_from_all s :
  xdigits_from s 0 (String.length s) = forallb isxdigit (list_ascii_of_string s).
Proof.
  induction s as [| a r IH]; [reflexivity |].
  cbn [String.length xdigits_from list_ascii_of_string forallb].
  change (char_at (String a r) 0) with a.
  rewrite xdigits_from_shift, IH.
  destruct (isxdigit a); reflexivity.
Qed.

Lemma is_valid_color_spec color :
  exit_status (is_valid_color color) = Ret (well_formed_color color).
Proof.
  unfold is_valid_color, well_formed_color, strlen.
  destruct color as [| c r]; [reflexivity |].
  change (char_at (String c r) 0) with c. cbn [String.length].
  destruct (Ascii.eqb c "#") eqn:Ec.
  - destruct (Nat.eqb_spec (String.length r) 6) as [E6 | N6].
    + replace (Z.of_nat (S (String.length r)) =? 7) with true
        by (symmetry; apply Z.eqb_eq; lia).
      replace (Z.to_nat (Z.of_nat (S (String.length r)) - 1)) with (String.length r) by lia.
      cbn [negb orb andb]. unfold exit_status, ret. cbn [fst]. f_equal.
      rewrite xdigits_from_shift. apply xdigits_from_all.
    + replace (Z.of_nat (S (String.length r)) =? 7) with false
        by (symmetry; apply Z.eqb_neq; lia).
      reflexivity.
  - rewrite orb_true_r. reflexivity.
Qed.

Lemma is_valid_color_trace color :
  paints (trace (is_valid_color color)) = false /\
  existsb is_decode (trace (is_valid_color color)) = false.
Proof.
  unfold is_valid_color.
  destruct (negb (strlen color =? 7) || negb (Ascii.eqb (char_at color 0) "#"));
    split; reflexivity.
Qed.

Lemma is_valid_color_run color :
  exists t, is_valid_color color = (Ret (well_formed_color color), t) /\
            paints t = false.
Proof.
  pose proof (is_valid_color_spec color) as Hs.
  pose proof (is_valid_color_trace color) as [Hp _].
  destruct (is_valid_color color) as [st t]. cbn in Hs, Hp. subst st.
  exists t. split; [reflexivity | exact Hp].
Qed.

(** ** How a run ends *)

Lemma bind_status {A B} (c : run A) (k : A -> run B) :
  exit_status (bind c k)
  = match exit_status c with
    | Ret a => exit_status (k a)
    | Exit code => Exit code
    | Undefined => Undefined
    | Blocked => Blocked
    end.
Proof.
  destruct c as [[a | code | |] t]; cbn; try reflexivity.
  destruct (k a); reflexivity.
Qed.

Lemma bind_trace_ret {A B} (a : A) t (k : A -> run B) :
  bind (Ret a, t) k = (exit_status (k a), t ++ trace (k a)).
Proof. cbn. destruct (k a); reflexivity. Qed.

Lemma dispatch_loop_status w : exit_status (dispatch_loop w) <> Undefined.
Proof.
  unfold dispatch_loop. destruct (dispatch_rounds w).
  - rewrite for_each_emit. discriminate.
  - discriminate.
Qed.

Lemma paint_pass_status w mode ww wh width height :
  exit_status
    (if window_prerender_ok w && window_has_cairo w then
       for_each (scaling_calls mode ww wh width height) (fun c => emit (Cairo c)) ;;
       emit (Cairo cairo_paint) ;;
       emit WindowRender
     else ret tt) = Ret tt.
Proof.
  destruct (window_prerender_ok w && window_has_cairo w); [| reflexivity].
  rewrite for_each_emit. reflexivity.
Qed.

(** Past the lookup of the output nothing reads outside a list. *)
Lemma main_defined_past_lookup w prog arg1 arg2 arg3 o :
  items_at (outputs w) (atoi arg1) = Some o ->
  exit_status (main w [prog; arg1; arg2; arg3]) <> Undefined.
Proof.
  intros Ho. unfold main. rewrite Ho.
  destruct (is_valid_color_run arg2) as (tc & Hc & _).
  repeat (rewrite bind_status; cbn [exit_status fst emit ret]).
  destruct (desktop_shell w); cbn [negb exit_status fst ret sway_abort];
    [| repeat (rewrite bind_status; cbn [exit_status fst emit ret]); cbn; discriminate].
  destruct (window_setup_ok w); cbn [exit_status fst ret];
    [| cbn; discriminate].
  destruct (streq arg3 "solid_color").
  - rewrite Hc. cbn [fst].
    destruct (well_formed_color arg2).
    + repeat (rewrite bind_status; cbn [exit_status fst emit ret]).
      pose proof (dispatch_loop_status w) as Hd.
      destruct (dispatch_loop w) as [[] ?]; cbn in *; congruence.
    + repeat (rewrite bind_status; cbn [exit_status fst emit ret]).
      destruct (decode w arg2) as [iw ih | | |]; try (cbn; discriminate).
      cbn [fst].
      destruct (parse_scaling_mode arg3); [| cbn; discriminate].
      cbn [fst app for_each].
      repeat (rewrite bind_status; cbn [exit_status fst emit ret]).
      rewrite paint_pass_status.
      pose proof (dispatch_loop_status w) as Hd.
      destruct (dispatch_loop w) as [[] ?]; cbn in *; congruence.
  - cbn [fst ret].
    repeat (rewrite bind_status; cbn [exit_status fst emit ret]).
    destruct (decode w arg2) as [iw ih | | |]; try (cbn; discriminate).
    cbn [fst].
    destruct (parse_scaling_mode arg3); [| cbn; discriminate].
    cbn [fst app for_each].
    repeat (rewrite bind_status; cbn [exit_status fst emit ret]).
    rewrite paint_pass_status.
    pose proof (dispatch_loop_status w) as Hd.
    destruct (dispatch_loop w) as [[] ?]; cbn in *; congruence.
Qed.

(** The whole run on an image: the calls of [placement] are the ones made
    on the cairo context, right before the one [cairo_paint]. *)
Lemma main_image_run w prog arg1 path mode_str mode o iw ih n :
  desktop_shell w = true ->
  items_at (outputs w) (atoi arg1) = Some o ->
  window_setup_ok w = true ->
  streq mode_str "solid_color" = false ->
  decode w path = Decoded iw ih ->
  parse_scaling_mode mode_str = Some mode ->
  window_prerender_ok w = true ->
  window_has_cairo w = true ->
  dispatch_rounds w = Some n ->
  main w [prog; arg1; path; mode_str]
  = (Ret 0,
     [ Log L_INFO "Using output %d of %d" [] [atoi arg1; list_length (outputs w)];
       SetBackground (atoi arg1); WindowMakeShell; DecodeImage path ]
     ++ map Cairo (placement mode (to_int (o_width o * o_scale o))
                                  (to_int (o_height o * o_scale o)) iw ih)
     ++ [ Cairo cairo_paint; WindowRender; SurfaceDestroy ]
     ++ repeat Dispatch (S n)
     ++ [ WindowTeardown; RegistryTeardown ]).
Proof.
  intros Hshell Ho Hwin Hmode Hdec Hparse Hpre Hcairo Hdisp.
  unfold main, dispatch_loop.
  rewrite Hshell, Ho, Hwin, Hmode, Hdec, Hparse, Hpre, Hcairo, Hdisp.
  rewrite (for_each_emit (A := unit)).
  cbn [negb andb app bind ret emit for_each fst snd win_width win_height win_scale].
  rewrite (for_each_emit (A := cairo_call)).
  unfold placement.
  cbn [bind ret emit app fst snd].
  rewrite !app_nil_r, map_repeat, <- !app_assoc. reflexivity.
Qed.

Ltac in_trace :=
  repeat first [ apply in_eq | apply in_cons | (apply in_or_app; right) ].

(** ** The claims on the arguments *)

(** C3, evaluated on the code: with mode [solid_color] and a colour that is
    not [#] and six hex digits, the run does not stop at the colour.  It
    goes on to load the colour argument as an image file, and exits with
    status 1 on a message of the image path (a load failure, or the
    unsupported scaling mode when a file of that name loads), never
    painting. *)
Theorem invalid_color_decoded_as_image w prog arg1 color :
  well_formed_color color = false ->
  desktop_shell w = true ->
  0 <= atoi arg1 < list_length (outputs w) ->
  window_setup_ok w = true ->
  let r := main w [prog; arg1; color; "solid_color"] in
  In (DecodeImage color) (trace r) /\
  exit_status r = Exit EXIT_FAILURE /\
  paints (trace r) = false /\
  exists msg, In msg image_path_messages /\ In (Stderr msg) (trace r).
Proof.
  intros Hbad Hshell Hidx Hwin. cbv zeta.
  destruct (items_at_some _ _ Hidx) as [o Ho].
  destruct (is_valid_color_run color) as (tc & Hc & Hp).
  unfold main. rewrite Ho, Hshell, Hwin. cbn [negb].
  change (streq "solid_color" "solid_color") with true.
  rewrite Hc, Hbad.
  assert (Hpm : parse_scaling_mode "solid_color" = None) by reflexivity.
  rewrite Hpm.
  unfold paints in Hp.
  destruct (decode w color) as [iw ih | | |]; cbn -[In image_path_messages];
    rewrite !existsb_app, Hp; cbn -[In image_path_messages];
    (split; [in_trace | split; [reflexivity | split; [reflexivity |]]]);
    eexists; (split; [| in_trace]); unfold image_path_messages; in_trace.
Qed.

Lemma invalid_color_decoded_as_image_witness :
  let r := main sample_world ["swaybg"; "0"; "#a1B2zz"; "solid_color"] in
  In (DecodeImage "#a1B2zz") (trace r) /\
  exit_status r = Exit EXIT_FAILURE /\
  paints (trace r) = false /\
  exists msg, In msg image_path_messages /\ In (Stderr msg) (trace r).
Proof.
  apply (invalid_color_decoded_as_image sample_world "swaybg" "0" "#a1B2zz").
  - reflexivity.
  - reflexivity.
  - change (0 <= 0 < 1). lia.
  - reflexivity.
Defined.

(** The run at the failing input, event by event: no message names the
    colour (the validator logs only a wrong length or a missing [#]). *)
Example invalid_color_run :
  main sample_world ["swaybg"; "0"; "#a1B2zz"; "solid_color"]
  = (Exit 1,
     [ Log L_INFO "Using output %d of %d" [] [0; 1];
       SetBackground 0; WindowMakeShell;
       DecodeImage "#a1B2zz";
       Stderr "Failed to read background image: %s";
       WindowTeardown; RegistryTeardown ]).
Proof. reflexivity. Qed.

(** C6: for every mode argument that is none of solid_color, stretch,
    fill, fit, center, tile, and an output index inside the output list,
    the process exits with the non-zero status EXIT_FAILURE and its trace
    holds no paint call. *)
Theorem unknown_mode_aborts w prog arg1 arg2 mode :
  unknown_mode mode ->
  0 <= atoi arg1 < list_length (outputs w) ->
  exit_status (main w [prog; arg1; arg2; mode]) = Exit EXIT_FAILURE /\
  EXIT_FAILURE <> 0 /\
  paints (trace (main w [prog; arg1; arg2; mode])) = false.
Proof.
  intros (Hs & H1 & H2 & H3 & H4 & H5) Hidx.
  destruct (items_at_some _ _ Hidx) as [o Ho].
  unfold main. rewrite Ho, (streq_neq _ _ Hs).
  rewrite (parse_scaling_mode_unknown mode) by assumption.
  destruct (desktop_shell w), (window_setup_ok w), (decode w arg2) as [iw ih | | |];
    cbn; repeat split; discriminate.
Qed.

Lemma unknown_mode_aborts_witness :
  exit_status (main sample_world ["swaybg"; "0"; "bg.png"; "zoom"]) = Exit EXIT_FAILURE /\
  EXIT_FAILURE <> 0 /\
  paints (trace (main sample_world ["swaybg"; "0"; "bg.png"; "zoom"])) = false.
Proof.
  apply (unknown_mode_aborts sample_world "swaybg" "0" "bg.png" "zoom").
  - unfold unknown_mode. repeat split; discriminate.
  - change (0 <= 0 < 1). lia.
Defined.

(** C7: the colour validator returns true for "#a1B2c3" and false for
    "a1B2c3" (no [#]), "#a1B2c" (six characters), "#a1B2c3Z" (eight
    characters) and "#a1B2zz" (a character that is no hex digit). *)
Theorem is_valid_color_examples :
  exit_status (is_valid_color "#a1B2c3") = Ret true /\
  exit_status (is_valid_color "a1B2c3") = Ret false /\
  exit_status (is_valid_color "#a1B2c") = Ret false /\
  exit_status (is_valid_color "#a1B2c3Z") = Ret false /\
  exit_status (is_valid_color "#a1B2zz") = Ret false.
Proof. repeat split. Qed.

(** C9: the output index is used unchecked.  The lookup in the output list
    yields a value exactly for 0 <= index < length; [main] guards it by no
    test, so a run that reaches the lookup (four arguments, desktop shell
    present) reads outside the list exactly when the index is outside that
    range. *)
Theorem output_index_unchecked w prog arg1 arg2 arg3 :
  (items_at (outputs w) (atoi arg1) = None
   <-> ~ (0 <= atoi arg1 < list_length (outputs w))) /\
  (exit_status (main w [prog; arg1; arg2; arg3]) = Undefined
   <-> desktop_shell w = true /\ ~ (0 <= atoi arg1 < list_length (outputs w))).
Proof.
  split; [apply items_at_none |].
  split.
  - intros Hu.
    destruct (desktop_shell w) eqn:Hshell.
    + split; [reflexivity |]. apply items_at_none.
      destruct (items_at (outputs w) (atoi arg1)) as [o |] eqn:Ho; [| reflexivity].
      exfalso. exact (main_defined_past_lookup w prog arg1 arg2 arg3 o Ho Hu).
    + exfalso. unfold main in Hu. rewrite Hshell in Hu. cbn in Hu. discriminate.
  - intros [Hshell Hout]. apply items_at_none in Hout.
    unfold main. rewrite Hshell, Hout. reflexivity.
Qed.

Example output_index_past_the_end :
  exit_status (main sample_world ["swaybg"; "1"; "bg.png"; "fit"]) = Undefined /\
  exit_status (main sample_world ["swaybg"; "-1"; "bg.png"; "fit"]) = Undefined.
Proof. split; reflexivity. Qed.

Lemma digits_value_no_digit s : starts_with_digit s = false -> digits_value 0 s = 0.
Proof.
  destruct s as [| c r]; [reflexivity |]. cbn [starts_with_digit digits_value].
  intros ->. reflexivity.
Qed.

Lemma strtol10_no_integer s : no_leading_integer s = true -> strtol10 s = 0.
Proof.
  unfold no_leading_integer, strtol10.
  destruct (skip_space s) as [| c r]; [reflexivity |].
  destruct (Ascii.eqb c "-"); cbn [orb].
  - intros H. apply negb_true_iff in H. rewrite digits_value_no_digit by exact H. reflexivity.
  - destruct (Ascii.eqb c "+").
    + intros H. apply negb_true_iff in H. rewrite digits_value_no_digit by exact H. reflexivity.
    + intros H. apply negb_true_iff in H. cbn [digits_value]. rewrite H. reflexivity.
Qed.

(** C10: for every first argument that holds no leading integer, [atoi]
    gives 0 and raises no error: the run is the run on the argument "0",
    and where the shell, a first output and the window are there it
    assigns the background of output 0. *)
Theorem atoi_without_integer s w prog arg2 arg3 :
  no_leading_integer s = true ->
  atoi s = 0 /\
  main w [prog; s; arg2; arg3] = main w [prog; "0"; arg2; arg3] /\
  (desktop_shell w = true -> outputs w <> [] -> window_setup_ok w = true ->
   In (SetBackground 0) (trace (main w [prog; s; arg2; arg3]))).
Proof.
  intros H.
  assert (E : atoi s = 0) by (unfold atoi; rewrite strtol10_no_integer by exact H; reflexivity).
  split; [exact E |]. split.
  - unfold main. rewrite E. change (atoi "0") with 0. reflexivity.
  - intros Hshell Hout Hwin. unfold main. rewrite E, Hshell, Hwin.
    destruct (outputs w) as [| o os]; [congruence |].
    change (items_at (o :: os) 0) with (Some o).
    cbn [negb]. unfold ret, emit.
    rewrite !bind_trace_ret. cbn [trace snd app]. in_trace.
Qed.

Lemma atoi_without_integer_witness :
  atoi "eDP-1" = 0 /\
  main sample_world ["swaybg"; "eDP-1"; "bg.png"; "fit"]
    = main sample_world ["swaybg"; "0"; "bg.png"; "fit"] /\
  In (SetBackground 0) (trace (main sample_world ["swaybg"; "eDP-1"; "bg.png"; "fit"])).
Proof.
  destruct (atoi_without_integer "eDP-1" sample_world "swaybg" "bg.png" "fit" eq_refl)
    as (H1 & H2 & H3).
  split; [exact H1 |]. split; [exact H2 |].
  apply H3; [reflexivity | discriminate | reflexivity].
Defined.
